(** * Pi calculator: the digit-extraction engine and its driver

    A shallow embedding of [code/pi calculator.cpp]: the modular
    arithmetic kernel ([mul_mod], [inv_mod], [pow_mod]), the prime
    iteration ([not_prime], [next_prime]), the nine-digit extractor
    ([at]) and the two conditionally compiled drivers ([calc_pi]).

    Conventions of the embedding.
    - [int] is a 32-bit two's complement integer and [long] a 64-bit one
      (LP64); both are carried by [Z] and every arithmetic result is
      reduced by [Int.wrap] / [Long.wrap].  [std::size_t] is a 64-bit
      unsigned integer reduced by [Size.wrap].
    - An integer division or remainder whose divisor is zero stops the
      program; it is the outcome [DivZero].
    - Loops are run by [while_loop] under a budget of [2^64] iterations;
      a loop that exhausts it is the outcome [Diverge].
    - [double] is IEEE 754 binary64, carried by the primitive floats;
      what the C library computes ([std::log], [std::sqrt], [std::fmod])
      is described where it is used. *)

From Stdlib Require Import ZArith Lia List Bool String.
From Stdlib Require Import Znumtheory DecimalString Floats.
Import ListNotations.
Local Open Scope Z_scope.

(** ** Outcomes *)

Inductive outcome (A : Type) : Type :=
| Ok (a : A)
| DivZero
| Diverge.
Arguments Ok {A} a.
Arguments DivZero {A}.
Arguments Diverge {A}.

Definition bind {A B : Type} (m : outcome A) (k : A -> outcome B) : outcome B :=
  match m with
  | Ok a => k a
  | DivZero => DivZero
  | Diverge => Diverge
  end.

Notation "x <- m ;; k" := (bind m (fun x => k))
  (at level 61, m at next level, right associativity).

(** ** Loops

    A loop body maps the loop state to [inl s'] (run the body again from
    [s']) or [inr r] (leave the loop with [r]). *)

Section Loops.
Context {St R : Type}.
Variable body : St -> outcome (St + R).

(** [iter_n n s] runs at most [n] rounds of the body. *)
Fixpoint iter_n (n : nat) (s : St) : outcome (St + R) :=
  match n with
  | O => Ok (inl s)
  | S n' =>
      match body s with
      | Ok (inl s') => iter_n n' s'
      | r => r
      end
  end.

(** [iter_p p s] runs at most [p] rounds, by doubling, so that a large
      budget costs nothing when the loop leaves early. *)
Fixpoint iter_p (p : positive) (s : St) : outcome (St + R) :=
  match p with
  | xH => body s
  | xO q =>
      match iter_p q s with
      | Ok (inl s') => iter_p q s'
      | r => r
      end
  | xI q =>
      match body s with
      | Ok (inl s') =>
          match iter_p q s' with
          | Ok (inl s'') => iter_p q s''
          | r => r
          end
      | r => r
      end
  end.

Definition budget : positive := Eval vm_compute in (2 ^ 64)%positive.

Definition while_loop (s : St) : outcome R :=
  match iter_p budget s with
  | Ok (inl _) => Diverge
  | Ok (inr r) => Ok r
  | DivZero => DivZero
  | Diverge => Diverge
  end.
End Loops.

(** ** Machine integers *)

Module Int.
Definition MIN : Z := Eval vm_compute in - 2 ^ 31.
Definition MAX : Z := Eval vm_compute in 2 ^ 31 - 1.
(** Reduction into [[MIN, MAX]] modulo [2^32]; the identity in range. *)
Definition wrap (z : Z) : Z :=
  if (MIN <=? z) && (z <=? MAX) then z
  else (z - MIN) mod (2 * (MAX + 1)) + MIN.
Definition add (x y : Z) : Z := wrap (x + y).
Definition sub (x y : Z) : Z := wrap (x - y).
Definition mul (x y : Z) : Z := wrap (x * y).
(** [x / y] and [x % y] of C++: truncation towards zero.  The one
    quotient out of range, [MIN / -1], wraps like the other operations. *)
Definition div (x y : Z) : outcome Z :=
  if y =? 0 then DivZero else Ok (wrap (Z.quot x y)).
Definition rem (x y : Z) : outcome Z :=
  if y =? 0 then DivZero else Ok (Z.rem x y).
End Int.

Module Long.
Definition MIN : Z := Eval vm_compute in - 2 ^ 63.
Definition MAX : Z := Eval vm_compute in 2 ^ 63 - 1.
Definition wrap (z : Z) : Z :=
  if (MIN <=? z) && (z <=? MAX) then z
  else (z - MIN) mod (2 * (MAX + 1)) + MIN.
Definition mul (x y : Z) : Z := wrap (x * y).
Definition rem (x y : Z) : outcome Z :=
  if y =? 0 then DivZero else Ok (Z.rem x y).
End Long.

Module Size.
Definition MAX : Z := Eval vm_compute in 2 ^ 64 - 1.
Definition wrap (z : Z) : Z :=
  if (0 <=? z) && (z <=? MAX) then z else z mod (MAX + 1).
Definition add (x y : Z) : Z := wrap (x + y).
Definition sub (x y : Z) : Z := wrap (x - y).
End Size.

(** ** Doubles *)

Module Double.
(** Conversion of an integer to [double]; exact below [2^53]. *)
Definition of_int (z : Z) : float :=
  match z with
  | Z0 => PrimFloat.zero
  | Zpos _ => PrimFloat.of_uint63 (Uint63.of_Z z)
  | Zneg p => PrimFloat.opp (PrimFloat.of_uint63 (Uint63.of_Z (Zpos p)))
  end.

(** The integer part of a finite double, towards zero. *)
Definition trunc (f : float) : option Z :=
  match Prim2SF f with
  | S754_zero _ => Some 0
  | S754_finite s m e =>
      let a := if 0 <=? e then Z.pos m * 2 ^ e else Z.pos m / 2 ^ (- e) in
      Some (if s then - a else a)
  | S754_infinity _ => None
  | S754_nan => None
  end.

(** [static_cast<int>(f)].  Out of range (and NaN) is undefined in C++;
    the x86-64 conversion instruction returns [INT_MIN] there. *)
Definition to_int (f : float) : Z :=
  match trunc f with
  | Some z => if (Int.MIN <=? z) && (z <=? Int.MAX) then z else Int.MIN
  | None => Int.MIN
  end.

(** [std::fmod(f, 1.0)]: the operation is exact, and so is the
    subtraction of the integer part (the operand here is a sum of two
    doubles below 1). *)
Definition fmod1 (f : float) : float :=
  match trunc f with
  | Some z => (f - of_int z)%float
  | None => PrimFloat.nan
  end.

(** The doubles returned by [std::log(10)] and [std::log(2)]. *)
Definition ln10 : float := 0x1.26bb1bbb55516p+1%float.
Definition ln2 : float := 0x1.62e42fefa39efp-1%float.
Definition billion : float := 1e9%float.

(** [static_cast<int>(std::sqrt(n))] for an [int n].  The square root of
    IEEE 754 is correctly rounded and [n] is exact as a double, so for
    [0 <= n] the truncated root is the integer square root; for [n < 0]
    the root is NaN and the conversion gives [INT_MIN]. *)
Definition sqrt_int (n : Z) : Z := if n <? 0 then Int.MIN else Z.sqrt n.
End Double.

(** ** The digit extractor *)

Module nine_digits_of_Pi.

Definition mul_mod (a b m : Z) : outcome Z :=
  r <- Long.rem (Long.mul a b) m ;;
  Ok (Int.wrap r).

(** The loop of [inv_mod]; the state is [(u, v, a, c)]. *)
Definition inv_mod_body (s : Z * Z * Z * Z) : outcome (Z * Z * Z * Z + Z) :=
  let '(u, v, a, c) := s in
  q <- Int.div v u ;;
  let t := c in
  let c := Int.sub a (Int.mul q c) in
  let a := t in
  let t := u in
  let u := Int.sub v (Int.mul q u) in
  let v := t in
  if u =? 0 then Ok (inr a) else Ok (inl (u, v, a, c)).

Definition inv_mod (x y : Z) : outcome Z :=
  a <- while_loop inv_mod_body (x, y, 0, 1) ;;
  a <- Int.rem a y ;;
  Ok (if a <? 0 then Int.add y a else a).

(** The loop of [pow_mod]; the state is [(r, aa, b)]. *)
Definition pow_mod_body (m : Z) (s : Z * Z * Z) : outcome (Z * Z * Z + Z) :=
  let '(r, aa, b) := s in
  r <- (if negb (Z.land b 1 =? 0) then mul_mod r aa m else Ok r) ;;
  let b := Z.shiftr b 1 in
  if b =? 0 then Ok (inr r)
  else aa <- mul_mod aa aa m ;; Ok (inl (r, aa, b)).

Definition pow_mod (a b m : Z) : outcome Z :=
  while_loop (pow_mod_body m) (1, a, b).

(** The loop of [not_prime]; the state is [i]. *)
Definition not_prime_body (n r : Z) (i : Z) : outcome (Z + bool) :=
  if i <=? r then
    m <- Int.rem n i ;;
    if m =? 0 then Ok (inr true) else Ok (inl (Int.add i 2))
  else Ok (inr false).

Definition not_prime (n : Z) : outcome bool :=
  if Z.land n 1 =? 0 then Ok true
  else
    let r := Double.sqrt_int n in
    while_loop (not_prime_body n r) 3.

Definition next_prime_body (n : Z) : outcome (Z + Z) :=
  let n := Int.add n 1 in
  b <- not_prime n ;;
  if b then Ok (inl n) else Ok (inr n).

Definition next_prime (n : Z) : outcome Z :=
  while_loop next_prime_body n.

(** [do { t = t / a; v += dv; } while ((t % a) == 0);] with [dv] either
    [-1] or [+1]; the state is [(t, v)]. *)
Definition strip_body (a dv : Z) (s : Z * Z) : outcome (Z * Z + Z * Z) :=
  let '(t, v) := s in
  t <- Int.div t a ;;
  let v := Int.add v dv in
  m <- Int.rem t a ;;
  if m =? 0 then Ok (inl (t, v)) else Ok (inr (t, v)).

(** [for (int i = 0; i < vmax; ++i) av *= a;]; the state is [(i, av)]. *)
Definition av_body (a vmax : Z) (s : Z * Z) : outcome (Z * Z + Z) :=
  let '(i, av) := s in
  if i <? vmax then Ok (inl (Int.add i 1, Int.mul av a)) else Ok (inr av).

(** [for (int i = v; i < vmax; ++i) t = mul_mod(t, a, av);]; the state
    is [(i, t)]. *)
Definition scale_body (a av vmax : Z) (s : Z * Z) : outcome (Z * Z + Z) :=
  let '(i, t) := s in
  if i <? vmax then t <- mul_mod t a av ;; Ok (inl (Int.add i 1, t))
  else Ok (inr t).

(** The variables of the [k] loop of [at]. *)
Record kstate : Type := KState {
  k_k : Z; k_t : Z; k_s : Z; k_num : Z; k_den : Z;
  k_v : Z; k_kq : Z; k_kq2 : Z
}.

Definition k_body (a av vmax N : Z) (st : kstate) : outcome (kstate + kstate) :=
  let k := k_k st in
  if k <=? N then
    let t := k in
    p <- (if k_kq st >=? a then
            q <- while_loop (strip_body a (-1)) (t, k_v st) ;;
            Ok (q, 0)
          else Ok ((t, k_v st), k_kq st)) ;;
    let '((t, v), kq) := p in
    let kq := Int.add kq 1 in
    num <- mul_mod (k_num st) t av ;;
    let t := Int.sub (Int.mul 2 k) 1 in
    p <- (if k_kq2 st >=? a then
            q <- (if k_kq2 st =? a then while_loop (strip_body a 1) (t, v)
                  else Ok (t, v)) ;;
            Ok (q, Int.sub (k_kq2 st) a)
          else Ok ((t, v), k_kq2 st)) ;;
    let '((t, v), kq2) := p in
    den <- mul_mod (k_den st) t av ;;
    let kq2 := Int.add kq2 2 in
    p <- (if v >? 0 then
            t <- inv_mod den av ;;
            t <- mul_mod t num av ;;
            t <- mul_mod t k av ;;
            t <- while_loop (scale_body a av vmax) (v, t) ;;
            let s := Int.add (k_s st) t in
            Ok (t, if s >=? av then Int.sub s av else s)
          else Ok (t, k_s st)) ;;
    let '(t, s) := p in
    Ok (inl (KState (Int.add k 1) t s num den v kq kq2))
  else Ok (inr st).

Section Extractor.
(** [log_ratio x a] stands for [static_cast<int>(std::log(x) / std::log(a))],
    which depends on the C library's logarithm. *)
Variable log_ratio : Z -> Z -> Z.

(** The loop over the primes [a]; the state is [(a, t, sum)]. *)
Definition prime_body (n N : Z) (st : Z * Z * float)
  : outcome (Z * Z * float + float) :=
  let '(a, t, sum) := st in
  if a <=? Int.mul 2 N then
    let vmax := log_ratio (Int.mul 2 N) a in
    av <- while_loop (av_body a vmax) (0, 1) ;;
    ks <- while_loop (k_body a av vmax N) (KState 1 t 0 1 1 0 1 1) ;;
    t <- pow_mod 10 (Int.sub n 1) av ;;
    m <- mul_mod (k_s ks) t av ;;
    let sum :=
      Double.fmod1 (sum + Double.of_int m / Double.of_int av)%float in
    a <- next_prime a ;;
    Ok (inl (a, t, sum))
  else Ok (inr sum).

(** The truncation bound [N] of the series. *)
Definition series_bound (n : Z) : Z :=
  Double.to_int
    (Double.of_int (Int.add n 20) * Double.ln10 / Double.ln2)%float.

Definition at_with (n : Z) : outcome Z :=
  let N := series_bound n in
  sum <- while_loop (prime_body n N) (3, 0, PrimFloat.zero) ;;
  Ok (Double.to_int (sum * Double.billion)%float).
End Extractor.

(** The exact value of the quotient of logarithms, truncated: the
    largest [v] with [a ^ v <= x].  For an even [x] and an odd [a >= 3]
    the real quotient is at distance more than [1 / (x * ln x)] from
    every integer, far above the rounding error of a double, so this is
    what the floating-point expression yields. *)
Fixpoint floor_log_aux (fuel : nat) (x a p : Z) : Z :=
  match fuel with
  | O => 0
  | S fuel' =>
      if p * a <=? x then 1 + floor_log_aux fuel' x a (p * a) else 0
  end.

Definition floor_log (x a : Z) : Z :=
  if a <=? 1 then 0 else floor_log_aux 64 x a 1.

(** [at]: the nine digits of pi that start at the 1-based position [n]. *)
Definition at_ (n : Z) : outcome Z := at_with floor_log n.

End nine_digits_of_Pi.

(** ** The driver *)

Import nine_digits_of_Pi.

(** [std::to_string] of an [int] and [std::string::substr]. *)
Definition to_string (z : Z) : string := NilEmpty.string_of_int (Z.to_int z).

Definition substr (s : string) (pos count : Z) : string :=
  String.substring (Z.to_nat pos) (Z.to_nat count) s.

(** What a run of [calc_pi] does that its caller can observe: each call
    of the extractor and each call of the progress callback, with the
    value passed and the answer received. *)
Inductive event : Type :=
| Block (n : Z)
| Progress (v : Z) (continue : bool).

(** How a run ends: [Completed] returns the digits, [Cancelled] returns
    the empty string, [Crashed] is a division by zero in the extractor
    and [Hung] a loop that does not end. *)
Inductive ending : Type := Completed | Cancelled | Crashed | Hung.

Record run (St : Type) : Type := Run {
  ending_of : ending;
  result : string;
  events : list event;
  final : St
}.
Arguments Run {St} _ _ _ _.
Arguments ending_of {St} _.
Arguments result {St} _.
Arguments events {St} _.
Arguments final {St} _.

Section Driver.
Context {St : Type}.
(** The progress callback, with the state it may keep between calls. *)
Variable progress : St -> Z -> bool * St.

(** The loop of the driver; the state is [(i, pi, st, log)].  [cancellable]
    tells the [ASYNC] driver, which looks at the callback's answer, from
    the single-threaded one, which drops it. *)
Definition calc_pi_body (cancellable : bool) (digits : Z)
  (s : Z * string * St * list event)
  : outcome (Z * string * St * list event + run St) :=
  let '(i, pi, st, log) := s in
  if i <? digits then
    let n := Int.wrap (Size.add i 1) in
    match at_ n with
    | Ok nine_digits =>
        let count := Z.min (Size.sub digits i) 9 in
        let pi := (pi ++ substr (to_string nine_digits) 0 count)%string in
        let v := Size.add i count in
        let (continue, st) := progress st v in
        let log := log ++ [Block n; Progress v continue] in
        if cancellable && negb continue
        then Ok (inr (Run Cancelled EmptyString log st))
        else Ok (inl (Size.add i 9, pi, st, log))
    | DivZero => Ok (inr (Run Crashed EmptyString (log ++ [Block n]) st))
    | Diverge => Ok (inr (Run Hung EmptyString (log ++ [Block n]) st))
    end
  else Ok (inr (Run Completed pi log st)).

Definition calc_pi_loop (cancellable : bool) (digits : Z) (st : St) : run St :=
  match iter_p (calc_pi_body cancellable digits) budget
          (0, "3."%string, st, []) with
  | Ok (inr r) => r
  | Ok (inl (_, _, st', log)) => Run Hung EmptyString log st'
  | DivZero => Run Crashed EmptyString [] st
  | Diverge => Run Hung EmptyString [] st
  end.

(** [calc_pi] under [#ifdef ASYNC] (the variant that is compiled). *)
Definition calc_pi (digits : Z) (st : St) : run St :=
  calc_pi_loop true digits st.

(** [calc_pi] under [#else]: the single-threaded variant. *)
Definition calc_pi_single (digits : Z) (st : St) : run St :=
  calc_pi_loop false digits st.
End Driver.

(** ** Notions used by the statements *)

(** The values passed to the progress callback, in order. *)
Fixpoint progress_values (log : list event) : list Z :=
  match log with
  | [] => []
  | Progress v _ :: log' => v :: progress_values log'
  | Block _ :: log' => progress_values log'
  end.

Fixpoint increasing_from (x : Z) (l : list Z) : Prop :=
  match l with
  | [] => True
  | y :: l' => x < y /\ increasing_from y l'
  end.

Definition strictly_increasing (l : list Z) : Prop :=
  match l with
  | [] => True
  | x :: l' => increasing_from x l'
  end.

(** [a ^ b] by repeated multiplication. *)
Fixpoint slow_power (a : Z) (b : nat) : Z :=
  match b with
  | O => 1
  | S b' => a * slow_power a b'
  end.

Definition power_mod_reference (a b m : Z) : Z :=
  slow_power a (Z.to_nat b) mod m.

(** A callback that never asks to stop. *)
Definition always_continue {St : Type} (progress : St -> Z -> bool * St) : Prop :=
  forall st v, fst (progress st v) = true.

(** ** Invariants of the loops *)

(** The extended Euclidean loop of [inv_mod x y], state [(u, v, a, c)]:
    [u] and [v] are consecutive remainders, [c] and [a] their
    coefficients of [x] modulo [y]; the coefficients alternate in sign
    and [|c| * v + |a| * u = y], which keeps every intermediate value in
    the [int] range. *)
Definition inv_mod_inv (x y : Z) (s : Z * Z * Z * Z) : Prop :=
  let '(u, v, a, c) := s in
  0 < u < v /\ v <= y /\ Z.gcd u v = 1 /\
  (exists k, c * x = u + k * y) /\ (exists l, a * x = v + l * y) /\
  ((0 <= c /\ a <= 0 /\ c * v - a * u = y) \/
   (c <= 0 /\ 0 <= a /\ a * u - c * v = y)).

Definition inv_mod_post (x y : Z) (a : Z) : Prop :=
  (exists l, a * x = 1 + l * y) /\ - y < a < y.

(** The square-and-multiply loop of [pow_mod a0 b0 m], state [(r, aa, b)]:
    [r * aa ^ b] stays congruent to [a0 ^ b0]; only the first round can
    see [b = 0]. *)
Definition pow_mod_inv (a0 b0 m : Z) (s : Z * Z * Z) : Prop :=
  let '(r, aa, b) := s in
  0 <= r <= Int.MAX /\ 0 <= aa <= Int.MAX /\ 0 <= b /\
  (r * aa ^ b) mod m = (a0 ^ b0) mod m /\
  (b = 0 -> r = 1) /\ (b = 0 <-> b0 = 0).

Definition pow_mod_post (a0 b0 m : Z) (r : Z) : Prop :=
  (1 <= b0 -> r = (a0 ^ b0) mod m) /\ (b0 = 0 -> r = 1).

(** [n] has a proper divisor. *)
Definition composite (n : Z) : Prop := exists d, 1 < d < n /\ (d | n).

(** The trial-division loop of [not_prime n], state [i]: [i] is odd and
    nothing below it divides [n]. *)
Definition not_prime_inv (n r i : Z) : Prop :=
  3 <= i <= r + 2 /\ i mod 2 = 1 /\ forall d, 1 < d < i -> ~ (d | n).

Definition not_prime_post (n : Z) (b : bool) : Prop :=
  b = true <-> composite n.

(** The search loop of [next_prime n0], state [n]: nothing in [(n0, n]]
    is prime, and [n] is still below the largest [int]. *)
Definition next_prime_inv (n0 n : Z) : Prop :=
  n0 <= n < Int.MAX /\ forall j, n0 < j <= n -> ~ prime j.

Definition next_prime_post (n0 p : Z) : Prop :=
  n0 < p <= Int.MAX /\ prime p /\ forall j, n0 < j < p -> ~ prime j.

(** The loops that strip the factors [a] of [t], state [(t, v)]. *)
Definition strip_inv (a t0 : Z) (s : Z * Z) : Prop :=
  1 <= fst s <= t0 /\ (a | fst s) /\ Int.MIN <= snd s <= Int.MAX.

Definition strip_post (a t0 : Z) (s : Z * Z) : Prop :=
  1 <= fst s <= t0 /\ ~ (a | fst s) /\ Int.MIN <= snd s <= Int.MAX.

(** The loop that raises [a] to the power [vmax], state [(i, av)]. *)
Definition av_inv (a vmax : Z) (s : Z * Z) : Prop :=
  0 <= fst s <= vmax /\ snd s = a ^ fst s.

(** The loop that scales a term by powers of [a], state [(i, t)]. *)
Definition scale_inv (av : Z) (s : Z * Z) : Prop :=
  Int.MIN <= fst s <= Int.MAX /\ 0 <= snd s < av.

(** The [k] loop of [at] for the prime [a] and the modulus [av]: the two
    counters [kq] and [kq2] follow [k] and [2k - 1] modulo [a], and the
    denominator stays prime to [a]. *)
Definition k_inv (a av N : Z) (st : kstate) : Prop :=
  1 <= k_k st <= N + 1 /\
  0 <= k_num st < av /\ 0 <= k_den st < av /\
  Z.gcd (k_den st) a = 1 /\
  1 <= k_kq st <= a /\ (a | k_k st - k_kq st) /\
  1 <= k_kq2 st <= a + 1 /\ (a | 2 * k_k st - 1 - k_kq2 st) /\
  Int.MIN <= k_v st <= Int.MAX.

(** The loop over the primes of [at], state [(a, t, sum)]. *)
Definition prime_inv (s : Z * Z * float) : Prop :=
  let '(a, _, _) := s in 3 <= a <= Int.MAX /\ prime a.

(** The loop of the driver, state [(i, pi, st, log)]: [i] counts the
    digits asked for so far, in steps of nine; the values reported to
    the callback grow, and the last one is [min digits i].  The bound on
    [i] is the last position the extractor accepts (see [at_minus_3]). *)
Definition driver_inv {St : Type} (digits : Z)
  (s : Z * string * St * list event) : Prop :=
  let '(i, _, _, log) := s in
  0 <= i <= 4294967292 /\ (9 | i) /\
  strictly_increasing (progress_values log) /\
  (forall v, In v (progress_values log) -> v <= Z.min digits i) /\
  (progress_values log = [] /\ i = 0 \/
   List.last (progress_values log) 0 = Z.min digits i).

Definition driver_post {St : Type} (digits : Z) (r : run St) : Prop :=
  strictly_increasing (progress_values (events r)) /\
  (ending_of r = Completed -> 1 <= digits ->
   List.last (progress_values (events r)) 0 = digits).

(** No callback has asked to stop. *)
Definition all_continue (log : list event) : Prop :=
  forall v, ~ In (Progress v false) log.

Definition cancel_inv {St : Type} (s : Z * string * St * list event) : Prop :=
  let '(_, _, _, log) := s in all_continue log.

Definition cancel_post {St : Type} (r : run St) : Prop :=
  all_continue (events r) \/
  exists log v, events r = log ++ [Progress v false] /\ all_continue log /\
                result r = EmptyString /\ ending_of r = Cancelled.

(** The driver asked for 315 digits, state [(i, pi, st, log)]: the text
    is never longer than ["3."] and [i] digits, and once the block that
    starts at position 307 is in, it is two characters short. *)
Definition short_inv {St : Type} (s : Z * string * St * list event) : Prop :=
  let '(i, pi, _, _) := s in
  0 <= i <= 315 /\ (9 | i) /\
  Z.of_nat (String.length pi) <= 2 + i /\
  (315 <= i -> Z.of_nat (String.length pi) <= i).

Definition short_post {St : Type} (r : run St) : Prop :=
  ending_of r = Completed /\ Z.of_nat (String.length (result r)) <= 315.

(** * Proofs *)

(** ** Reasoning about loops *)

Section LoopFacts.
Context {St R : Type}.
Variable body : St -> outcome (St + R).

Lemma iter_n_plus (n m : nat) (s : St) :
  iter_n body (n + m) s =
  match iter_n body n s with
  | Ok (inl s') => iter_n body m s'
  | r => r
  end.
Proof.
  revert s; induction n as [|n IH]; intro s; simpl; [reflexivity|].
  destruct (body s) as [[s'|r]| |]; auto.
Qed.

Lemma iter_n_one (s : St) : iter_n body 1 s = body s.
Proof. simpl. destruct (body s) as [[s'|r]| |]; reflexivity. Qed.

Lemma iter_p_iter_n (p : positive) (s : St) :
  iter_p body p s = iter_n body (Pos.to_nat p) s.
Proof.
  revert s; induction p as [p IH|p IH|]; intro s.
  - rewrite Pos2Nat.inj_xI. cbn [iter_p iter_n Nat.mul].
    destruct (body s) as [[s'|r]| |]; try reflexivity.
    rewrite Nat.add_0_r, iter_n_plus, <- !IH.
    destruct (iter_p body p s') as [[s''|r]| |]; auto.
  - rewrite Pos2Nat.inj_xO. cbn [iter_p Nat.mul].
    rewrite Nat.add_0_r, iter_n_plus, <- IH.
    destruct (iter_p body p s) as [[s''|r]| |]; auto.
  - symmetry. apply iter_n_one.
Qed.

(** Once a loop has left, or stopped on a fault, more rounds change nothing. *)
Lemma iter_n_stable (n m : nat) (s : St) :
  (n <= m)%nat ->
  (forall s', iter_n body n s <> Ok (inl s')) ->
  iter_n body m s = iter_n body n s.
Proof.
  intros Hle Hout. replace m with (n + (m - n))%nat by lia.
  rewrite iter_n_plus.
  destruct (iter_n body n s) as [[s'|r]| |]; try reflexivity.
  exfalso. apply (Hout s'). reflexivity.
Qed.

Section Total.
Variable Inv : St -> Prop.
Variable Post : R -> Prop.
Variable mu : St -> Z.
Hypothesis step : forall s, Inv s ->
  (exists s', body s = Ok (inl s') /\ Inv s' /\ 0 <= mu s' < mu s) \/
  (exists r, body s = Ok (inr r) /\ Post r).

Lemma iter_n_total (n : nat) (s : St) :
  Inv s -> 0 <= mu s < Z.of_nat n ->
  exists r, iter_n body n s = Ok (inr r) /\ Post r.
Proof.
  revert s; induction n as [|n IH]; intros s HI Hmu; [lia|].
  simpl. destruct (step s HI) as [(s' & -> & HI' & Hdec)|(r & -> & HP)].
  - apply IH; [assumption|lia].
  - exists r; auto.
Qed.

(** Total correctness: an invariant and a variant below the budget. *)
Lemma while_loop_total (s : St) :
  Inv s -> 0 <= mu s < 2 ^ 64 - 1 ->
  exists r, while_loop body s = Ok r /\ Post r.
Proof.
  intros HI Hmu. unfold while_loop. rewrite iter_p_iter_n.
  destruct (iter_n_total (Pos.to_nat budget) s HI) as (r & -> & HP).
  - rewrite positive_nat_Z. unfold budget. lia.
  - exists r; auto.
Qed.
End Total.

(** Partial correctness: an invariant alone. *)
Lemma iter_n_invariant (Inv : St -> Prop) (Post : R -> Prop) :
  (forall s s', Inv s -> body s = Ok (inl s') -> Inv s') ->
  (forall s r, Inv s -> body s = Ok (inr r) -> Post r) ->
  forall n s, Inv s ->
  match iter_n body n s with
  | Ok (inl s') => Inv s'
  | Ok (inr r) => Post r
  | _ => True
  end.
Proof.
  intros Hstep Hexit. induction n as [|n IH]; intros s HI; simpl; [exact HI|].
  destruct (body s) as [[s'|r]| |] eqn:E; try exact I.
  - apply IH. exact (Hstep s s' HI E).
  - exact (Hexit s r HI E).
Qed.

(** A loop whose body never leaves exhausts every budget. *)
Lemma while_loop_diverges (Inv : St -> Prop) :
  (forall s, Inv s -> exists s', body s = Ok (inl s') /\ Inv s') ->
  forall s, Inv s -> while_loop body s = Diverge.
Proof.
  intros Hstep s HI. unfold while_loop. rewrite iter_p_iter_n.
  assert (H : forall n s, Inv s -> exists s', iter_n body n s = Ok (inl s')).
  { induction n as [|n IH]; intros s1 H1; simpl; [eauto|].
    destruct (Hstep s1 H1) as (s2 & -> & H2). auto. }
  destruct (H (Pos.to_nat budget) s HI) as (s' & ->). reflexivity.
Qed.
End LoopFacts.

(** ** Machine integers *)

Lemma Int_wrap_id (z : Z) : Int.MIN <= z <= Int.MAX -> Int.wrap z = z.
Proof.
  intros H. unfold Int.wrap.
  destruct (Z.leb_spec Int.MIN z); destruct (Z.leb_spec z Int.MAX); simpl; lia.
Qed.

Lemma Int_wrap_range (z : Z) : Int.MIN <= Int.wrap z <= Int.MAX.
Proof.
  unfold Int.wrap.
  destruct (Z.leb_spec Int.MIN z); destruct (Z.leb_spec z Int.MAX);
    cbn [andb]; try lia;
    pose proof (Z.mod_pos_bound (z - Int.MIN) (2 * (Int.MAX + 1)));
    unfold Int.MIN, Int.MAX in *; lia.
Qed.

Lemma Long_wrap_id (z : Z) : Long.MIN <= z <= Long.MAX -> Long.wrap z = z.
Proof.
  intros H. unfold Long.wrap.
  destruct (Z.leb_spec Long.MIN z); destruct (Z.leb_spec z Long.MAX); simpl; lia.
Qed.

Lemma Size_wrap_id (z : Z) : 0 <= z <= Size.MAX -> Size.wrap z = z.
Proof.
  intros H. unfold Size.wrap.
  destruct (Z.leb_spec 0 z); destruct (Z.leb_spec z Size.MAX); simpl; lia.
Qed.

Lemma Int_div_pos (x y : Z) :
  0 <= x <= Int.MAX -> 0 < y -> Int.div x y = Ok (x / y).
Proof.
  intros Hx Hy. unfold Int.div.
  destruct (Z.eqb_spec y 0); [lia|].
  rewrite Z.quot_div_nonneg by lia.
  rewrite Int_wrap_id; [reflexivity|].
  pose proof (Z.div_pos x y ltac:(lia) Hy).
  pose proof (Z.div_le_upper_bound x y x Hy ltac:(nia)).
  unfold Int.MIN, Int.MAX in *. lia.
Qed.

Lemma Int_rem_pos (x y : Z) :
  0 <= x -> 0 < y -> Int.rem x y = Ok (x mod y).
Proof.
  intros Hx Hy. unfold Int.rem.
  destruct (Z.eqb_spec y 0); [lia|].
  rewrite Z.rem_mod_nonneg by lia. reflexivity.
Qed.

(** [mul_mod] on operands of the [int] range computes the remainder of
    the exact product: the 64-bit product cannot overflow. *)
Lemma mul_mod_exact (a b m : Z) :
  0 <= a <= Int.MAX -> 0 <= b <= Int.MAX -> 0 < m <= Int.MAX ->
  mul_mod a b m = Ok ((a * b) mod m).
Proof.
  intros Ha Hb Hm. unfold mul_mod, Long.rem, Long.mul.
  destruct (Z.eqb_spec m 0); [lia|].
  rewrite Long_wrap_id by (unfold Long.MIN, Long.MAX, Int.MAX in *; nia).
  simpl. rewrite Z.rem_mod_nonneg by nia.
  rewrite Int_wrap_id; [reflexivity|].
  pose proof (Z.mod_pos_bound (a * b) m ltac:(lia)).
  unfold Int.MIN, Int.MAX in *. lia.
Qed.

(** ** The modular inverse *)

Section InvMod.
Variables x y : Z.
Hypothesis Hx : 1 <= x < y.
Hypothesis Hy : y <= Int.MAX.
Hypothesis Hgcd : Z.gcd x y = 1.

Lemma inv_mod_step (s : Z * Z * Z * Z) :
  inv_mod_inv x y s ->
  (exists s', inv_mod_body s = Ok (inl s') /\ inv_mod_inv x y s' /\
              0 <= fst (fst (fst s')) < fst (fst (fst s))) \/
  (exists r, inv_mod_body s = Ok (inr r) /\ inv_mod_post x y r).
Proof.
  destruct s as [[[u v] a] c]. intros (Huv & Hvy & Hg & [k Hk] & [l Hl] & Hsign).
  unfold inv_mod_body. rewrite Int_div_pos by lia. cbn [bind].
  set (q := v / u).
  assert (Hq : v = u * q + v mod u) by (apply Z.div_mod; lia).
  assert (Hr : 0 <= v mod u < u) by (apply Z.mod_pos_bound; lia).
  assert (Hq1 : 1 <= q) by (unfold q; apply Z.div_le_lower_bound; lia).
  assert (Hqc : - y <= q * c <= y /\ - y <= a - q * c <= y /\ - y <= c <= y).
  { destruct Hsign as [(H1 & H2 & H3)|(H1 & H2 & H3)]; nia. }
  unfold Int.sub, Int.mul.
  unfold Int.MAX in Hy.
  rewrite (Int_wrap_id (q * c)) by (unfold Int.MIN, Int.MAX; lia).
  rewrite (Int_wrap_id (a - q * c)) by (unfold Int.MIN, Int.MAX; lia).
  rewrite (Int_wrap_id (q * u)) by (unfold Int.MIN, Int.MAX; nia).
  rewrite (Int_wrap_id (v - q * u)) by (unfold Int.MIN, Int.MAX; nia).
  replace (v - q * u) with (v mod u) by lia.
  destruct (Z.eqb_spec (v mod u) 0) as [E|E].
  - right. exists c. split; [reflexivity|].
    assert (Hu1 : u = 1).
    { apply Z.divide_1_r_nonneg; [lia|]. rewrite <- Hg.
      apply Z.gcd_greatest; [apply Z.divide_refl|].
      exists q. lia. }
    split; [exists k; lia|].
    destruct Hsign as [(H1 & H2 & H3)|(H1 & H2 & H3)]; nia.
  - left. exists (v mod u, u, c, a - q * c). split; [reflexivity|].
    split; [|cbn [fst]; lia].
    unfold inv_mod_inv.
    split; [lia|]. split; [lia|]. split; [|split; [|split]].
    + rewrite Z.gcd_comm. rewrite <- Hg.
      replace (v mod u) with (v + (- q) * u) by lia.
      apply Z.gcd_add_mult_diag_r.
    + exists (l - q * k). nia.
    + exists k. exact Hk.
    + destruct Hsign as [(H1 & H2 & H3)|(H1 & H2 & H3)]; [right|left]; nia.
Qed.

Lemma inv_mod_loop_total :
  exists a, while_loop inv_mod_body (x, y, 0, 1) = Ok a /\ inv_mod_post x y a.
Proof.
  apply (while_loop_total inv_mod_body (inv_mod_inv x y) (inv_mod_post x y)
           (fun s => fst (fst (fst s))) inv_mod_step).
  - unfold inv_mod_inv. rewrite Hgcd.
    split; [lia|]. split; [lia|]. split; [reflexivity|].
    split; [exists 0; lia|]. split; [exists (-1); lia|left; lia].
  - cbn [fst]. unfold Int.MAX in Hy. lia.
Qed.

Lemma inv_mod_spec :
  exists r, inv_mod x y = Ok r /\ 0 <= r < y /\ (r * x) mod y = 1.
Proof.
  destruct inv_mod_loop_total as (a & Ha & [l Hl] & Hrange).
  unfold inv_mod. rewrite Ha. cbn [bind]. unfold Int.rem.
  destruct (Z.eqb_spec y 0); [lia|]. cbn [bind].
  assert (Hrem : Z.rem a y = a - y * (Z.quot a y))
    by (pose proof (Z.quot_rem' a y); lia).
  assert (Hb : - y < Z.rem a y < y).
  { pose proof (Z.rem_bound_abs a y ltac:(lia)). lia. }
  assert (Hone : forall r j, r = a + j * y -> 0 <= r < y -> (r * x) mod y = 1).
  { intros r j -> Hr.
    replace ((a + j * y) * x) with (1 + (l + j * x) * y) by nia.
    rewrite Z.mod_add by lia. apply Z.mod_small. lia. }
  assert (Hnz : Z.rem a y <> 0).
  { intro E. assert (Ha0 : a = y * Z.quot a y) by lia.
    assert (Hdiv : (y | 1)).
    { exists (Z.quot a y * x - l). nia. }
    apply Z.divide_1_r_nonneg in Hdiv; lia. }
  destruct (Z.ltb_spec (Z.rem a y) 0) as [Hneg|Hpos].
  - eexists. split; [reflexivity|].
    unfold Int.add. rewrite Int_wrap_id
      by (unfold Int.MIN, Int.MAX in *; lia).
    split; [lia|]. apply (Hone _ (1 - Z.quot a y)); lia.
  - eexists. split; [reflexivity|].
    split; [lia|]. apply (Hone _ (- Z.quot a y)); lia.
Qed.
End InvMod.

(** ** The modular power *)

Lemma land_1_parity (b : Z) : Z.land b 1 = b mod 2.
Proof. change 1 with (Z.ones 1). rewrite Z.land_ones by lia. reflexivity. Qed.

Lemma shiftr_1_half (b : Z) : Z.shiftr b 1 = b / 2.
Proof. rewrite Z.shiftr_div_pow2 by lia. reflexivity. Qed.

Lemma pow_halve (aa b : Z) :
  0 <= b -> aa ^ b = (if b mod 2 =? 0 then 1 else aa) * (aa * aa) ^ (b / 2).
Proof.
  intros Hb. pose proof (Z.div_mod b 2 ltac:(lia)) as Hd.
  pose proof (Z.mod_pos_bound b 2 ltac:(lia)) as Hm.
  assert (H0 : 0 <= b / 2) by (apply Z.div_pos; lia).
  rewrite <- Z.pow_2_r, <- Z.pow_mul_r by lia.
  destruct (Z.eqb_spec (b mod 2) 0) as [E|E].
  - rewrite Z.mul_1_l. f_equal. lia.
  - replace b with (1 + 2 * (b / 2)) at 1 by lia.
    rewrite Z.pow_add_r, Z.pow_1_r by lia. reflexivity.
Qed.

Section PowMod.
Variables a0 b0 m : Z.
Hypothesis Hm : 0 < m <= Int.MAX.

Lemma pow_mod_step (s : Z * Z * Z) :
  pow_mod_inv a0 b0 m s ->
  (exists s', pow_mod_body m s = Ok (inl s') /\ pow_mod_inv a0 b0 m s' /\
              0 <= snd s' < snd s) \/
  (exists r, pow_mod_body m s = Ok (inr r) /\ pow_mod_post a0 b0 m r).
Proof.
  destruct s as [[r aa] b]. intros (Hr & Haa & Hb & Hcong & Hone & Hzero).
  unfold pow_mod_body. rewrite land_1_parity, shiftr_1_half.
  pose proof (Z.div_mod b 2 ltac:(lia)) as Hd.
  pose proof (Z.mod_pos_bound b 2 ltac:(lia)) as Hpar.
  pose proof (Z.mod_pos_bound (r * aa) m ltac:(lia)) as Hra.
  pose proof (Z.mod_pos_bound (aa * aa) m ltac:(lia)) as Haa2.
  rewrite (pow_halve aa b Hb) in Hcong.
  destruct (Z.eqb_spec (b mod 2) 0) as [Heven|Hodd]; cbn [negb bind].
  - destruct (Z.eqb_spec (b / 2) 0) as [Hlast|Hmore].
    + right. exists r. split; [reflexivity|].
      assert (Eb : b = 0) by lia. split; [lia|auto].
    + left. rewrite mul_mod_exact by lia. cbn [bind].
      eexists. split; [reflexivity|]. cbn [snd]. split; [|lia].
      unfold pow_mod_inv. repeat (split; [lia|]).
      split; [|split; [lia|split; lia]].
      rewrite <- Hcong, Z.mul_1_l.
      rewrite Z.mul_mod, Z.mod_pow_l, <- Z.mul_mod by lia. reflexivity.
  - rewrite mul_mod_exact by lia. cbn [bind].
    destruct (Z.eqb_spec (b / 2) 0) as [Hlast|Hmore].
    + right. eexists. split; [reflexivity|].
      rewrite Hlast, Z.pow_0_r, Z.mul_1_r in Hcong.
      split; [intros _; exact Hcong|]. intros E. lia.
    + left. rewrite mul_mod_exact by lia. cbn [bind].
      eexists. split; [reflexivity|]. cbn [snd]. split; [|lia].
      unfold pow_mod_inv. repeat (split; [lia|]).
      split; [|split; [lia|split; lia]].
      rewrite <- Hcong.
      rewrite Z.mul_mod, Z.mod_mod, Z.mod_pow_l, <- Z.mul_mod by lia.
      f_equal. ring.
Qed.

Lemma pow_mod_spec :
  0 <= a0 <= Int.MAX -> 0 <= b0 <= Int.MAX ->
  exists r, pow_mod a0 b0 m = Ok r /\ pow_mod_post a0 b0 m r.
Proof.
  intros Ha Hb. unfold pow_mod.
  apply (while_loop_total (pow_mod_body m) (pow_mod_inv a0 b0 m)
           (pow_mod_post a0 b0 m) snd pow_mod_step).
  - unfold pow_mod_inv. rewrite Z.mul_1_l.
    split; [unfold Int.MAX; lia|]. split; [exact Ha|]. split; [lia|].
    split; [reflexivity|]. split; [auto|tauto].
  - cbn [snd]. unfold Int.MAX in Hb. lia.
Qed.
End PowMod.

Lemma slow_power_pow (a b : Z) : 0 <= b -> slow_power a (Z.to_nat b) = a ^ b.
Proof.
  intros Hb. rewrite <- (Z2Nat.id b) at 2 by exact Hb.
  induction (Z.to_nat b) as [|n IH]; [reflexivity|].
  rewrite Nat2Z.inj_succ, Z.pow_succ_r by lia. simpl. rewrite IH. reflexivity.
Qed.

(** ** Primes *)

Lemma composite_not_prime (n : Z) : 1 < n -> (composite n <-> ~ prime n).
Proof.
  intros Hn. split.
  - intros (d & Hd & Hdiv) Hp. rewrite <- prime_alt in Hp.
    destruct Hp as [_ Hp]. exact (Hp d Hd Hdiv).
  - intros Hnp. destruct (not_prime_divide n Hn Hnp) as (d & Hd & Hdiv).
    exists d. split; [lia|assumption].
Qed.

(** A number with no divisor up to its square root has none at all. *)
Lemma no_small_divisor_prime (n r : Z) :
  1 < n -> 0 <= r -> n < (r + 1) * (r + 1) ->
  (forall d, 1 < d <= r -> ~ (d | n)) -> ~ composite n.
Proof.
  intros Hn Hr Hsq Hnone (d & Hd & q & Hq).
  assert (Hqpos : 1 < q < n) by nia.
  destruct (Z_le_gt_dec d r) as [Hle|Hgt].
  - apply (Hnone d); [lia|]. exists q. exact Hq.
  - apply (Hnone q); [nia|]. exists d. lia.
Qed.

Section NotPrime.
Variable n : Z.
Hypothesis Hn : 3 <= n <= Int.MAX.
Hypothesis Hodd : n mod 2 = 1.

Lemma sqrt_int_bounds :
  0 <= Double.sqrt_int n <= 46340 /\
  Double.sqrt_int n * Double.sqrt_int n <= n /\
  n < (Double.sqrt_int n + 1) * (Double.sqrt_int n + 1).
Proof.
  unfold Double.sqrt_int. destruct (Z.ltb_spec n 0); [lia|].
  pose proof (Z.sqrt_spec n ltac:(lia)) as Hs.
  pose proof (Z.sqrt_nonneg n). unfold Int.MAX in Hn.
  unfold Z.succ in Hs.
  split; [|nia]. split; [lia|].
  destruct (Z_le_gt_dec (Z.sqrt n) 46340) as [Hle|Hgt]; [exact Hle|].
  assert (46341 * 46341 <= Z.sqrt n * Z.sqrt n)
    by (apply Z.mul_le_mono_nonneg; lia).
  lia.
Qed.

Lemma not_prime_step (i : Z) :
  not_prime_inv n (Double.sqrt_int n) i ->
  (exists i', not_prime_body n (Double.sqrt_int n) i = Ok (inl i') /\
              not_prime_inv n (Double.sqrt_int n) i' /\
              0 <= Double.sqrt_int n + 2 - i' < Double.sqrt_int n + 2 - i) \/
  (exists b, not_prime_body n (Double.sqrt_int n) i = Ok (inr b) /\
             not_prime_post n b).
Proof.
  intros (Hi & Hiodd & Hnone).
  destruct sqrt_int_bounds as (Hr & Hlow & Hup).
  unfold not_prime_body.
  destruct (Z.leb_spec i (Double.sqrt_int n)) as [Hle|Hgt].
  - rewrite Int_rem_pos by lia. cbn [bind].
    destruct (Z.eqb_spec (n mod i) 0) as [E|E].
    + right. exists true. split; [reflexivity|].
      split; [intros _|reflexivity].
      exists i. split; [nia|]. apply Z.mod_divide; [lia|exact E].
    + left. unfold Int.add.
      rewrite Int_wrap_id by (unfold Int.MIN, Int.MAX; lia).
      exists (i + 2). split; [reflexivity|]. split; [|lia].
      split; [lia|]. split.
      * rewrite <- Z.add_mod_idemp_l, Hiodd by lia. reflexivity.
      * intros d Hd Hdiv.
        destruct (Z.eq_dec d i) as [->|Hdi];
          [apply E; apply Z.mod_divide; [lia|exact Hdiv]|].
        destruct (Z.eq_dec d (i + 1)) as [->|Hdi1];
          [|apply (Hnone d); [lia|exact Hdiv]].
        assert (H2 : (2 | n)).
        { apply Z.divide_trans with (i + 1); [|exact Hdiv].
          apply Z.mod_divide; [lia|].
          rewrite <- Z.add_mod_idemp_l, Hiodd by lia. reflexivity. }
        apply Z.mod_divide in H2; lia.
  - right. exists false. split; [reflexivity|].
    split; [discriminate|]. intros Hc. exfalso.
    apply (no_small_divisor_prime n (Double.sqrt_int n)); try lia; try assumption.
    intros d Hd. apply Hnone. lia.
Qed.

Lemma not_prime_odd :
  exists b, not_prime n = Ok b /\ not_prime_post n b.
Proof.
  unfold not_prime. rewrite land_1_parity, Hodd. cbn [Z.eqb].
  destruct sqrt_int_bounds as (Hr & Hlow & Hup).
  apply (while_loop_total _ (not_prime_inv n (Double.sqrt_int n))
           (not_prime_post n)
           (fun i => Double.sqrt_int n + 2 - i) not_prime_step).
  - split; [lia|]. split; [reflexivity|].
    intros d Hd Hdiv. assert (d = 2) by lia. subst d.
    apply Z.mod_divide in Hdiv; lia.
  - lia.
Qed.
End NotPrime.

Lemma not_prime_spec (n : Z) :
  3 <= n <= Int.MAX ->
  exists b, not_prime n = Ok b /\ (b = true <-> composite n).
Proof.
  intros Hn. pose proof (Z.mod_pos_bound n 2 ltac:(lia)) as Hpar.
  destruct (Z.eq_dec (n mod 2) 1) as [Hodd|Heven].
  - exact (not_prime_odd n Hn Hodd).
  - unfold not_prime. rewrite land_1_parity.
    replace (n mod 2) with 0 by lia. cbn [Z.eqb].
    exists true. split; [reflexivity|]. split; [intros _|reflexivity].
    exists 2. split; [lia|]. apply Z.mod_divide; lia.
Qed.

(** The largest [int], [2^31 - 1], is prime: the program's own test says
    so, and the test is right. *)
Lemma int_max_prime : prime Int.MAX.
Proof.
  destruct (not_prime_spec Int.MAX) as (b & Hrun & Hb);
    [unfold Int.MAX; lia|].
  assert (E : not_prime Int.MAX = Ok false) by (vm_compute; reflexivity).
  rewrite E in Hrun. injection Hrun as <-.
  destruct (prime_dec Int.MAX) as [Hp|Hnp]; [exact Hp|].
  apply composite_not_prime in Hnp; [|unfold Int.MAX; lia].
  apply Hb in Hnp. discriminate Hnp.
Qed.

Section NextPrime.
Variable n0 : Z.
Hypothesis Hn0 : 2 <= n0.

Lemma next_prime_step (n : Z) :
  next_prime_inv n0 n ->
  (exists n', next_prime_body n = Ok (inl n') /\ next_prime_inv n0 n' /\
              0 <= Int.MAX - n' < Int.MAX - n) \/
  (exists p, next_prime_body n = Ok (inr p) /\ next_prime_post n0 p).
Proof.
  intros (Hn & Hnone). unfold next_prime_body, Int.add.
  rewrite Int_wrap_id by (unfold Int.MIN, Int.MAX in *; lia).
  destruct (not_prime_spec (n + 1)) as (b & -> & Hb); [lia|].
  cbn [bind]. destruct b.
  - left. exists (n + 1). split; [reflexivity|].
    assert (Hc : composite (n + 1)) by (apply Hb; reflexivity).
    apply composite_not_prime in Hc; [|lia].
    assert (n + 1 <> Int.MAX) by (intros E; apply Hc; rewrite E; exact int_max_prime).
    split; [|lia]. split; [lia|].
    intros j Hj. destruct (Z.eq_dec j (n + 1)) as [->|Hne]; [exact Hc|].
    apply Hnone. lia.
  - right. exists (n + 1). split; [reflexivity|].
    split; [lia|]. split.
    + destruct (prime_dec (n + 1)) as [Hp|Hnp]; [exact Hp|].
      apply composite_not_prime in Hnp; [|lia].
      apply Hb in Hnp. discriminate Hnp.
    + intros j Hj. apply Hnone. lia.
Qed.

Lemma next_prime_spec :
  n0 < Int.MAX ->
  exists p, next_prime n0 = Ok p /\ next_prime_post n0 p.
Proof.
  intros Hlt. unfold next_prime.
  apply (while_loop_total _ (next_prime_inv n0) (next_prime_post n0)
           (fun n => Int.MAX - n) next_prime_step).
  - split; [lia|]. intros j Hj. lia.
  - unfold Int.MAX in *. lia.
Qed.
End NextPrime.

(** ** The inner loops of the extractor *)

Lemma while_loop_exit {St R : Type} (body : St -> outcome (St + R)) s r :
  body s = Ok (inr r) -> while_loop body s = Ok r.
Proof.
  intros E.
  destruct (while_loop_total body (fun s' => s' = s) (fun r' => r' = r)
              (fun _ => 0)) with (s := s) as (r' & -> & ->);
    [|reflexivity|lia|reflexivity].
  intros s' ->. right. exists r. auto.
Qed.

Lemma mul_mod_total (a b m : Z) : m <> 0 -> exists r, mul_mod a b m = Ok r.
Proof.
  intros Hm. unfold mul_mod, Long.rem.
  destruct (Z.eqb_spec m 0); [contradiction|]. cbn [bind]. eauto.
Qed.

Lemma strip_total (a dv t0 v0 : Z) :
  2 <= a <= Int.MAX -> 1 <= t0 <= Int.MAX -> (a | t0) ->
  Int.MIN <= v0 <= Int.MAX ->
  exists s, while_loop (strip_body a dv) (t0, v0) = Ok s /\ strip_post a t0 s.
Proof.
  intros Ha Ht Hdiv Hv.
  apply (while_loop_total _ (strip_inv a t0) (strip_post a t0) fst).
  - intros [t v] (Hr & (q & Hq) & _). cbn [fst snd] in *. unfold strip_body.
    assert (Hq1 : 1 <= q) by nia.
    assert (Htq : t / a = q) by (subst t; apply Z.div_mul; lia).
    rewrite Int_div_pos by lia. cbn [bind].
    rewrite Htq, Int_rem_pos by lia. cbn [bind].
    assert (q < t) by nia.
    pose proof (Int_wrap_range (v + dv)) as Hw.
    destruct (Z.eqb_spec (q mod a) 0) as [E|E].
    + left. eexists. split; [reflexivity|]. unfold strip_inv. cbn [fst snd].
      split; [|lia]. split; [lia|]. split; [|exact Hw].
      apply Z.mod_divide; [lia|exact E].
    + right. eexists. split; [reflexivity|]. unfold strip_post. cbn [fst snd].
      split; [lia|]. split; [|exact Hw].
      intro H'. apply E. apply Z.mod_divide; [lia|exact H'].
  - unfold strip_inv. cbn [fst snd]. split; [lia|]. split; assumption.
  - cbn [fst]. unfold Int.MAX in *. lia.
Qed.

Lemma av_total (a vmax : Z) :
  1 <= a -> 0 <= vmax -> a ^ vmax <= Int.MAX -> vmax < Int.MAX ->
  while_loop (av_body a vmax) (0, 1) = Ok (a ^ vmax).
Proof.
  intros Ha Hv Hpow Hvm.
  destruct (while_loop_total (av_body a vmax) (av_inv a vmax)
              (fun r => r = a ^ vmax) (fun s => vmax - fst s))
    with (s := (0, 1)) as (r & -> & ->); [| | |reflexivity].
  - intros [i av] [Hi Hav]. cbn [fst snd] in *. unfold av_body.
    destruct (Z.ltb_spec i vmax) as [Hlt|Hge].
    + left. eexists. split; [reflexivity|]. cbn [fst snd].
      unfold Int.add, Int.mul.
      assert (Hle : a ^ (i + 1) <= a ^ vmax) by (apply Z.pow_le_mono_r; lia).
      assert (Hpos : 0 < a ^ (i + 1)) by (apply Z.pow_pos_nonneg; lia).
      assert (Hmul : av * a = a ^ (i + 1))
        by (rewrite Z.pow_add_r, Z.pow_1_r by lia; subst av; reflexivity).
      rewrite (Int_wrap_id (i + 1)) by (unfold Int.MIN, Int.MAX in *; lia).
      rewrite (Int_wrap_id (av * a)) by (unfold Int.MIN, Int.MAX in *; lia).
      unfold av_inv. cbn [fst snd]. split; [|lia]. split; [lia|exact Hmul].
    + right. eexists. split; [reflexivity|].
      subst av. f_equal. lia.
  - split; cbn [fst snd]; [lia|reflexivity].
  - cbn [fst]. unfold Int.MAX in *. lia.
Qed.

Lemma scale_total (a av vmax i0 t0 : Z) :
  0 <= a <= Int.MAX -> 0 < av <= Int.MAX -> vmax <= Int.MAX ->
  Int.MIN <= i0 <= Int.MAX -> 0 <= t0 < av ->
  exists t, while_loop (scale_body a av vmax) (i0, t0) = Ok t.
Proof.
  intros Ha Hav Hv Hi Ht.
  destruct (while_loop_total (scale_body a av vmax) (scale_inv av)
              (fun _ => True) (fun s => Z.max 0 (vmax - fst s)))
    with (s := (i0, t0)) as (r & Hr & _); [| | |eauto].
  - intros [i t] [Hi' Ht']. cbn [fst snd] in *. unfold scale_body.
    destruct (Z.ltb_spec i vmax) as [Hlt|Hge].
    + left. rewrite mul_mod_exact by lia. cbn [bind].
      eexists. split; [reflexivity|]. cbn [fst snd]. unfold Int.add.
      rewrite Int_wrap_id by lia.
      pose proof (Z.mod_pos_bound (t * a) av ltac:(lia)).
      unfold scale_inv. cbn [fst snd]. split; [split; lia|lia].
    + right. eexists. split; [reflexivity|exact I].
  - split; cbn [fst snd]; lia.
  - cbn [fst]. unfold Int.MIN, Int.MAX in *. lia.
Qed.

(** ** The [k] loop of the extractor *)

Lemma coprime_mul_mod (den t a av : Z) :
  prime a -> (a | av) -> 0 < av ->
  Z.gcd den a = 1 -> ~ (a | t) -> Z.gcd ((den * t) mod av) a = 1.
Proof.
  intros Hp [c Hc] Hav Hden Ht. apply prime_alt in Hp.
  assert (Hrel : Z.coprime a (den * t)).
  { apply Z.coprime_mul_r.
    - unfold Z.coprime. rewrite Z.gcd_comm. exact Hden.
    - apply Z.coprime_prime_l; assumption. }
  rewrite Z.gcd_comm, <- Hrel.
  pose proof (Z.div_mod (den * t) av ltac:(lia)) as Hd.
  replace ((den * t) mod av)
    with (den * t + (- (den * t / av) * c) * a) by (subst av; lia).
  apply Z.gcd_add_mult_diag_r.
Qed.

Section KLoop.
Variables a av vmax N : Z.
Hypothesis Hprime : prime a.
Hypothesis Ha : 3 <= a < Int.MAX.
Hypothesis HN : 1 <= N /\ 2 * N <= Int.MAX.
Hypothesis Hvmax : 1 <= vmax < Int.MAX.
Hypothesis Hav : av = a ^ vmax.
Hypothesis Hav_le : av <= Int.MAX.

Lemma modulus_facts : a <= av /\ (a | av).
Proof.
  subst av. split.
  - rewrite <- (Z.pow_1_r a) at 1. apply Z.pow_le_mono_r; lia.
  - exists (a ^ (vmax - 1)).
    rewrite <- (Z.pow_1_r a) at 3. rewrite <- Z.pow_add_r by lia.
    f_equal. lia.
Qed.

Lemma num_strip (k v kq : Z) :
  1 <= k <= Int.MAX -> 1 <= kq <= a -> (a | k - kq) ->
  Int.MIN <= v <= Int.MAX ->
  exists t1 v1 kq1,
    (if kq >=? a then
       q <- while_loop (strip_body a (-1)) (k, v) ;; Ok (q, 0)
     else Ok ((k, v), kq)) = Ok ((t1, v1), kq1) /\
    1 <= t1 <= k /\ Int.MIN <= v1 <= Int.MAX /\
    0 <= kq1 < a /\ (a | k - kq1).
Proof.
  intros Hk Hkq [z Hz] Hv. destruct modulus_facts as [Hale _].
  destruct (Z.geb_spec kq a) as [Hge|Hlt].
  - assert (kq = a) by lia. subst kq.
    destruct (strip_total a (-1) k v) as ([t1 v1] & -> & Hpost & _ & Hv1);
      [lia|lia|exists (z + 1); lia|exact Hv|].
    cbn [bind fst snd] in *. exists t1, v1, 0.
    split; [reflexivity|]. split; [lia|]. split; [exact Hv1|].
    split; [lia|exists (z + 1); lia].
  - exists k, v, kq. split; [reflexivity|].
    repeat (split; [lia|]). exists z. exact Hz.
Qed.

Lemma den_strip (k v kq2 : Z) :
  1 <= k -> 2 * k <= Int.MAX -> 1 <= kq2 <= a + 1 ->
  (a | 2 * k - 1 - kq2) -> Int.MIN <= v <= Int.MAX ->
  exists t3 v3 kq3,
    (if kq2 >=? a then
       q <- (if kq2 =? a then while_loop (strip_body a 1) (2 * k - 1, v)
             else Ok (2 * k - 1, v)) ;;
       Ok (q, Int.sub kq2 a)
     else Ok ((2 * k - 1, v), kq2)) = Ok ((t3, v3), kq3) /\
    1 <= t3 <= 2 * k - 1 /\ ~ (a | t3) /\ Int.MIN <= v3 <= Int.MAX /\
    0 <= kq3 < a /\ (a | 2 * k - 1 - kq3).
Proof.
  intros Hk Hk2 Hkq [z Hz] Hv. destruct modulus_facts as [Hale _].
  assert (Hsub : Int.sub kq2 a = kq2 - a)
    by (apply Int_wrap_id; unfold Int.MIN, Int.MAX in *; lia).
  destruct (Z.geb_spec kq2 a) as [Hge|Hlt].
  - rewrite Hsub. destruct (Z.eqb_spec kq2 a) as [->|Hne].
    + destruct (strip_total a 1 (2 * k - 1) v)
        as ([t3 v3] & -> & Hpost & Hnd & Hv3);
        [lia|lia|exists (z + 1); lia|exact Hv|].
      cbn [bind fst snd] in *. exists t3, v3, (a - a).
      split; [reflexivity|]. split; [lia|]. split; [exact Hnd|].
      split; [exact Hv3|]. split; [lia|exists (z + 1); lia].
    + cbn [bind]. exists (2 * k - 1), v, (kq2 - a).
      split; [reflexivity|]. split; [lia|]. split.
      * intros [w Hw]. assert (Hone : (a | 1)).
        { exists (w - z - 1). rewrite !Z.mul_sub_distr_r. lia. }
        apply Z.divide_1_r_nonneg in Hone; lia.
      * split; [exact Hv|]. split; [lia|exists (z + 1); lia].
  - exists (2 * k - 1), v, kq2. split; [reflexivity|].
    split; [lia|]. split.
    + intros [w Hw]. assert (Hm : (a | kq2)).
      { exists (w - z). rewrite Z.mul_sub_distr_r. lia. }
      apply Z.divide_pos_le in Hm; lia.
    + split; [exact Hv|]. split; [lia|exists z; exact Hz].
Qed.

Lemma k_step (st : kstate) :
  k_inv a av N st ->
  (exists st', k_body a av vmax N st = Ok (inl st') /\ k_inv a av N st' /\
               0 <= N + 1 - k_k st' < N + 1 - k_k st) \/
  (exists r, k_body a av vmax N st = Ok (inr r) /\ True).
Proof.
  destruct st as [k t s num den v kq kq2]. unfold k_inv. cbn [k_k k_t k_s k_num k_den k_v k_kq k_kq2].
  intros (Hk & Hnum & Hden & Hg & Hkq & Hkqd & Hkq2 & Hkq2d & Hv).
  destruct modulus_facts as [Hale Hdiv].
  unfold k_body. cbn [k_k k_t k_s k_num k_den k_v k_kq k_kq2].
  destruct (Z.leb_spec k N) as [Hle|Hgt]; [left|right; eauto].
  destruct (num_strip k v kq) as (t1 & v1 & kq1 & -> & Ht1 & Hv1 & Hkq1 & Hkq1d);
    [unfold Int.MAX in *; lia|exact Hkq|exact Hkqd|exact Hv|].
  cbn [bind]. rewrite mul_mod_exact by (unfold Int.MAX in *; lia). cbn [bind].
  assert (Ht2 : Int.sub (Int.mul 2 k) 1 = 2 * k - 1).
  { unfold Int.sub, Int.mul.
    rewrite (Int_wrap_id (2 * k)) by (unfold Int.MIN, Int.MAX in *; lia).
    apply Int_wrap_id. unfold Int.MIN, Int.MAX in *. lia. }
  rewrite Ht2.
  destruct (den_strip k v1 kq2) as (t3 & v3 & kq3 & -> & Ht3 & Hnd & Hv3 & Hkq3 & Hkq3d);
    [lia|lia|exact Hkq2|exact Hkq2d|exact Hv1|].
  cbn [bind]. rewrite mul_mod_exact by (unfold Int.MAX in *; lia). cbn [bind].
  set (num' := (num * t1) mod av). set (den' := (den * t3) mod av).
  assert (Hnum' : 0 <= num' < av) by (apply Z.mod_pos_bound; lia).
  assert (Hden' : 0 <= den' < av) by (apply Z.mod_pos_bound; lia).
  assert (Hg' : Z.gcd den' a = 1)
    by (apply coprime_mul_mod; [exact Hprime|exact Hdiv|lia|exact Hg|exact Hnd]).
  assert (Hk1 : Int.add k 1 = k + 1)
    by (apply Int_wrap_id; unfold Int.MIN, Int.MAX in *; lia).
  assert (Hkq' : Int.add kq1 1 = kq1 + 1)
    by (apply Int_wrap_id; unfold Int.MIN, Int.MAX in *; lia).
  assert (Hkq2' : Int.add kq3 2 = kq3 + 2)
    by (apply Int_wrap_id; unfold Int.MIN, Int.MAX in *; lia).
  rewrite Hk1, Hkq', Hkq2'.
  assert (Hfinal : forall t' s',
    k_inv a av N (KState (k + 1) t' s' num' den' v3 (kq1 + 1) (kq3 + 2)) /\
    0 <= N + 1 - (k + 1) < N + 1 - k).
  { intros t' s'. split; [|lia]. unfold k_inv.
    cbn [k_k k_t k_s k_num k_den k_v k_kq k_kq2].
    split; [lia|]. split; [exact Hnum'|]. split; [exact Hden'|].
    split; [exact Hg'|]. split; [lia|].
    split; [destruct Hkq1d as [w Hw]; exists w; lia|].
    split; [lia|].
    split; [destruct Hkq3d as [w Hw]; exists w; lia|exact Hv3]. }
  destruct (Z.gtb_spec v3 0) as [Hpos|Hneg].
  - assert (Hden1 : 1 <= den').
    { destruct (Z.eq_dec den' 0) as [E|E]; [|lia].
      rewrite E, Z.gcd_0_l in Hg'. lia. }
    destruct (inv_mod_spec den' av) as (r & -> & Hr & _);
      [lia|exact Hav_le|subst av; apply Z.coprime_pow_r; [lia|exact Hg']|].
    cbn [bind]. rewrite mul_mod_exact by (unfold Int.MAX in *; lia). cbn [bind].
    pose proof (Z.mod_pos_bound (r * num') av ltac:(lia)) as Hrn.
    rewrite mul_mod_exact by (unfold Int.MAX in *; lia). cbn [bind].
    pose proof (Z.mod_pos_bound (((r * num') mod av) * k) av ltac:(lia)) as Hrk.
    destruct (scale_total a av vmax v3 (((r * num') mod av * k) mod av))
      as (t' & ->); [lia|lia|lia|exact Hv3|exact Hrk|].
    cbn [bind]. eexists. split; [reflexivity|]. apply Hfinal.
  - cbn [bind]. eexists. split; [reflexivity|]. apply Hfinal.
Qed.

Lemma k_loop_total (t0 : Z) :
  exists ks, while_loop (k_body a av vmax N) (KState 1 t0 0 1 1 0 1 1) = Ok ks.
Proof.
  destruct modulus_facts as [Hale Hdiv].
  destruct (while_loop_total (k_body a av vmax N) (k_inv a av N)
              (fun _ => True) (fun st => N + 1 - k_k st) k_step)
    with (s := KState 1 t0 0 1 1 0 1 1) as (ks & Hks & _); [| |eauto].
  - unfold k_inv. cbn [k_k k_t k_s k_num k_den k_v k_kq k_kq2].
    split; [lia|]. split; [lia|]. split; [lia|].
    split; [apply Z.gcd_1_l|]. split; [lia|]. split; [exists 0; lia|].
    split; [lia|]. split; [exists 0; lia|unfold Int.MIN, Int.MAX; lia].
  - cbn [k_k]. unfold Int.MAX in *. lia.
Qed.
End KLoop.

(** ** The loop over the primes *)

Lemma Int_wrap_cong (z : Z) : exists q, Int.wrap z = z + q * 2 ^ 32.
Proof.
  unfold Int.wrap.
  destruct ((Int.MIN <=? z) && (z <=? Int.MAX)); [exists 0; lia|].
  exists (- ((z - Int.MIN) / (2 * (Int.MAX + 1)))).
  pose proof (Z.div_mod (z - Int.MIN) (2 * (Int.MAX + 1))) as Hd.
  unfold Int.MIN, Int.MAX in *. lia.
Qed.

Lemma to_int_range (f : float) : Int.MIN <= Double.to_int f <= Int.MAX.
Proof.
  unfold Double.to_int. destruct (Double.trunc f) as [z|].
  - destruct (Z.leb_spec Int.MIN z); destruct (Z.leb_spec z Int.MAX);
      cbn [andb]; unfold Int.MIN, Int.MAX in *; lia.
  - unfold Int.MIN, Int.MAX. lia.
Qed.

Section PrimeLoop.
Variable log_ratio : Z -> Z -> Z.
Hypothesis log_ratio_sound : forall x a,
  3 <= a <= x -> x <= Int.MAX ->
  1 <= log_ratio x a /\ a ^ log_ratio x a <= x.
Variables n N : Z.
Hypothesis Hn : 1 <= n <= Int.MAX.
Hypothesis HN : Int.MIN <= N <= Int.MAX.

Lemma prime_step (s : Z * Z * float) :
  prime_inv s ->
  (exists s', prime_body log_ratio n N s = Ok (inl s') /\ prime_inv s' /\
              0 <= Int.MAX - fst (fst s') < Int.MAX - fst (fst s)) \/
  (exists r, prime_body log_ratio n N s = Ok (inr r) /\ True).
Proof.
  destruct s as [[a t] sum]. intros [Ha Hprime]. cbn [fst].
  unfold prime_body.
  destruct (Z.leb_spec a (Int.mul 2 N)) as [Hle|Hgt]; [left|right; eauto].
  pose proof (Int_wrap_range (2 * N)) as HX.
  destruct (Int_wrap_cong (2 * N)) as [q HXq].
  fold (Int.mul 2 N) in HX, HXq. set (X := Int.mul 2 N) in *.
  destruct (log_ratio_sound X a) as [Hv1 Hpow]; [lia|lia|].
  set (vmax := log_ratio X a) in *.
  assert (Hlin : vmax < a ^ vmax) by (apply Z.pow_gt_lin_r; lia).
  assert (Halt : a < Int.MAX) by (unfold Int.MIN, Int.MAX in *; lia).
  rewrite av_total by lia. cbn [bind].
  assert (Hk : exists ks,
    while_loop (k_body a (a ^ vmax) vmax N) (KState 1 t 0 1 1 0 1 1) = Ok ks).
  { destruct (Z_le_gt_dec 1 N) as [HN1|HN0].
    - apply k_loop_total; try assumption; try reflexivity;
        unfold Int.MIN, Int.MAX in *; lia.
    - eexists. apply while_loop_exit. unfold k_body. cbn [k_k].
      destruct (Z.leb_spec 1 N); [lia|reflexivity]. }
  destruct Hk as [ks ->]. cbn [bind].
  assert (Hsub : Int.sub n 1 = n - 1)
    by (apply Int_wrap_id; unfold Int.MIN, Int.MAX in *; lia).
  rewrite Hsub.
  assert (Hpos : 0 < a ^ vmax) by (apply Z.pow_pos_nonneg; lia).
  destruct (pow_mod_spec 10 (n - 1) (a ^ vmax)) as (r & -> & _);
    [lia|unfold Int.MAX; lia|lia|].
  cbn [bind].
  destruct (mul_mod_total (k_s ks) r (a ^ vmax)) as [m ->]; [lia|].
  cbn [bind].
  destruct (next_prime_spec a) as (p & -> & Hp & Hpp & _); [lia|exact Halt|].
  cbn [bind]. eexists. split; [reflexivity|]. cbn [fst].
  split; [|lia]. split; [lia|exact Hpp].
Qed.

Lemma prime_loop_total :
  exists sum, while_loop (prime_body log_ratio n N) (3, 0, PrimFloat.zero) = Ok sum.
Proof.
  destruct (while_loop_total (prime_body log_ratio n N) prime_inv
              (fun _ => True) (fun s => Int.MAX - fst (fst s)) prime_step)
    with (s := (3, 0, PrimFloat.zero)) as (sum & Hs & _); [| |eauto].
  - split; [unfold Int.MAX; lia|]. apply prime_alt. exact Z.prime_3.
  - cbn [fst]. unfold Int.MAX. lia.
Qed.
End PrimeLoop.

(** The extractor runs to the end, without a division by zero, for every
    logarithm quotient that is at least [1] and not too large. *)
Lemma at_with_total (log_ratio : Z -> Z -> Z) :
  (forall x a, 3 <= a <= x -> x <= Int.MAX ->
     1 <= log_ratio x a /\ a ^ log_ratio x a <= x) ->
  forall n, 1 <= n <= Int.MAX -> exists r, at_with log_ratio n = Ok r.
Proof.
  intros Hlog n Hn. unfold at_with.
  destruct (prime_loop_total log_ratio Hlog n (series_bound n) Hn)
    as [sum ->]; [apply to_int_range|].
  cbn [bind]. eauto.
Qed.

Lemma floor_log_aux_sound (x a : Z) (fuel : nat) (p : Z) :
  2 <= a -> 1 <= p <= x ->
  0 <= floor_log_aux fuel x a p /\ p * a ^ floor_log_aux fuel x a p <= x.
Proof.
  intros Ha. revert p.
  induction fuel as [|fuel IH]; intros p Hp; cbn [floor_log_aux].
  - rewrite Z.pow_0_r. lia.
  - destruct (Z.leb_spec (p * a) x) as [Hle|Hgt]; [|rewrite Z.pow_0_r; lia].
    destruct (IH (p * a)) as [H0 H1]; [nia|].
    split; [lia|]. rewrite Z.pow_add_r, Z.pow_1_r by lia.
    rewrite Z.mul_assoc. exact H1.
Qed.

Lemma floor_log_aux_tight (x a : Z) (fuel : nat) (p : Z) :
  2 <= a -> 1 <= p -> x < p * 2 ^ Z.of_nat fuel ->
  x < p * a ^ (floor_log_aux fuel x a p + 1).
Proof.
  intros Ha. revert p. induction fuel as [|fuel IH]; intros p Hp Hx.
  - cbn [floor_log_aux]. change (Z.of_nat 0) with 0 in Hx.
    rewrite Z.pow_0_r in Hx. rewrite Z.pow_1_r. nia.
  - cbn [floor_log_aux]. rewrite Nat2Z.inj_succ, Z.pow_succ_r in Hx by lia.
    destruct (Z.leb_spec (p * a) x) as [Hle|Hgt].
    + pose proof (floor_log_aux_sound x a fuel (p * a) Ha ltac:(nia)) as [H0 _].
      assert (H2 : 0 < 2 ^ Z.of_nat fuel) by (apply Z.pow_pos_nonneg; lia).
      specialize (IH (p * a) ltac:(nia) ltac:(nia)).
      replace (1 + floor_log_aux fuel x a (p * a) + 1)
        with (1 + (floor_log_aux fuel x a (p * a) + 1)) by lia.
      rewrite Z.pow_add_r, Z.pow_1_r by lia.
      rewrite Z.mul_assoc. exact IH.
    + rewrite Z.pow_1_r. lia.
Qed.

(** [floor_log x a] is the largest [v] with [a ^ v <= x]. *)
Lemma floor_log_spec (x a : Z) :
  2 <= a -> 1 <= x <= Int.MAX ->
  0 <= floor_log x a /\ a ^ floor_log x a <= x < a ^ (floor_log x a + 1).
Proof.
  intros Ha Hx. unfold floor_log. destruct (Z.leb_spec a 1); [lia|].
  destruct (floor_log_aux_sound x a 64 1 Ha) as [H0 H1]; [lia|].
  pose proof (floor_log_aux_tight x a 64 1 Ha) as H2.
  rewrite !Z.mul_1_l in *.
  split; [exact H0|]. split; [exact H1|].
  apply H2; [lia|].
  unfold Int.MAX in Hx. change (2 ^ Z.of_nat 64) with 18446744073709551616. lia.
Qed.

Lemma floor_log_sound (x a : Z) :
  3 <= a <= x -> x <= Int.MAX ->
  1 <= floor_log x a /\ a ^ floor_log x a <= x.
Proof.
  intros Ha Hx.
  destruct (floor_log_spec x a) as (H0 & Hlow & Hup); [lia|lia|].
  split; [|exact Hlow].
  destruct (Z.eq_dec (floor_log x a) 0) as [E|E]; [|lia].
  rewrite E in Hup. simpl in Hup. lia.
Qed.

Lemma at_total (n : Z) : 1 <= n <= Int.MAX -> exists r, at_ n = Ok r.
Proof. exact (at_with_total floor_log floor_log_sound n). Qed.

(** ** Non-positive positions

    [pow_mod] shifts a negative exponent right for ever, so the
    extractor does not return when it is asked for a position [n <= 0]
    whose series is not empty. *)

Lemma while_loop_body_fault {St R : Type} (body : St -> outcome (St + R)) s :
  body s = Diverge -> while_loop body s = Diverge.
Proof.
  intros E. unfold while_loop. rewrite iter_p_iter_n.
  destruct (Pos2Nat.is_succ budget) as [m ->]. simpl. rewrite E. reflexivity.
Qed.

Lemma pow_mod_negative (a b m : Z) :
  b < 0 -> m <> 0 -> pow_mod a b m = Diverge.
Proof.
  intros Hb Hm. unfold pow_mod.
  apply (while_loop_diverges (pow_mod_body m) (fun s => snd s < 0));
    [|exact Hb].
  intros [[r aa] e] He. cbn [snd] in He. unfold pow_mod_body.
  assert (Hr : exists r', (if negb (Z.land e 1 =? 0) then mul_mod r aa m
                           else Ok r) = Ok r').
  { destruct (negb (Z.land e 1 =? 0)); [apply mul_mod_total; exact Hm|eauto]. }
  destruct Hr as [r' ->]. cbn [bind]. rewrite shiftr_1_half.
  assert (Hhalf : e / 2 < 0) by (apply Z.div_lt_upper_bound; lia).
  destruct (Z.eqb_spec (e / 2) 0) as [E|_]; [lia|].
  destruct (mul_mod_total aa aa m Hm) as [aa' ->]. cbn [bind].
  eexists. split; [reflexivity|exact Hhalf].
Qed.

Lemma at_with_nonpositive (log_ratio : Z -> Z -> Z) (n : Z) :
  (forall x a, 3 <= a <= x -> x <= Int.MAX ->
     1 <= log_ratio x a /\ a ^ log_ratio x a <= x) ->
  Int.MIN < n <= 0 -> 2 <= series_bound n -> 2 * series_bound n <= Int.MAX ->
  at_with log_ratio n = Diverge.
Proof.
  intros Hlog Hn HN1 HN2. unfold at_with.
  set (N := series_bound n) in *.
  rewrite while_loop_body_fault; [reflexivity|].
  unfold prime_body.
  assert (HX : Int.mul 2 N = 2 * N)
    by (apply Int_wrap_id; unfold Int.MIN, Int.MAX in *; lia).
  rewrite HX. destruct (Z.leb_spec 3 (2 * N)) as [_|Hlt]; [|lia].
  destruct (Hlog (2 * N) 3) as [Hv Hpow]; [lia|lia|].
  set (vmax := log_ratio (2 * N) 3) in *.
  assert (Hlin : vmax < 3 ^ vmax) by (apply Z.pow_gt_lin_r; lia).
  rewrite av_total by lia. cbn [bind].
  destruct (k_loop_total 3 (3 ^ vmax) vmax N) with (t0 := 0) as [ks ->].
  { apply prime_alt. exact Z.prime_3. }
  { unfold Int.MAX. lia. }
  { lia. }
  { lia. }
  { reflexivity. }
  { lia. }
  cbn [bind]. rewrite pow_mod_negative; [reflexivity| |].
  - unfold Int.sub. pose proof (Int_wrap_id (n - 1)).
    unfold Int.MIN, Int.MAX in *. lia.
  - assert (0 < 3 ^ vmax) by (apply Z.pow_pos_nonneg; lia). lia.
Qed.

(** The position that the driver reaches after [2^32 - 4] digits. *)
Lemma at_minus_3 : at_ (-3) = Diverge.
Proof.
  assert (E : series_bound (-3) = 56) by (vm_compute; reflexivity).
  apply at_with_nonpositive; [exact floor_log_sound| |rewrite E..];
    unfold Int.MIN, Int.MAX; lia.
Qed.

(** ** The driver *)

Lemma progress_values_app (l1 l2 : list event) :
  progress_values (l1 ++ l2) = progress_values l1 ++ progress_values l2.
Proof.
  induction l1 as [|[n|v b] l1 IH]; simpl; [reflexivity|exact IH|].
  rewrite IH. reflexivity.
Qed.

Lemma increasing_from_snoc (l : list Z) (x v : Z) :
  increasing_from x l -> x < v -> (forall y, In y l -> y < v) ->
  increasing_from x (l ++ [v]).
Proof.
  revert x. induction l as [|y l IH]; intros x Hinc Hx Hall; simpl.
  - split; [exact Hx|exact I].
  - destruct Hinc as [Hxy Hinc]. split; [exact Hxy|].
    apply IH; [exact Hinc|apply Hall; left; reflexivity|].
    intros z Hz. apply Hall. right. exact Hz.
Qed.

Lemma strictly_increasing_snoc (l : list Z) (v : Z) :
  strictly_increasing l -> (forall y, In y l -> y < v) ->
  strictly_increasing (l ++ [v]).
Proof.
  destruct l as [|x l]; intros Hinc Hall; simpl; [exact I|].
  apply increasing_from_snoc; [exact Hinc|apply Hall; left; reflexivity|].
  intros y Hy. apply Hall. right. exact Hy.
Qed.

Section DriverFacts.
Context {St : Type}.
Variable progress : St -> Z -> bool * St.
Variable cancellable : bool.
Variable digits : Z.

Lemma calc_pi_body_ok (s : Z * string * St * list event) :
  exists x, calc_pi_body progress cancellable digits s = Ok x.
Proof.
  destruct s as [[[i pi] st] log]. unfold calc_pi_body.
  destruct (i <? digits); [|eauto].
  destruct (at_ _); eauto.
  destruct (progress st _) as [b st']. destruct (cancellable && negb b); eauto.
Qed.

Lemma calc_pi_iter_ok (n : nat) (s : Z * string * St * list event) :
  exists x, iter_n (calc_pi_body progress cancellable digits) n s = Ok x.
Proof.
  revert s. induction n as [|n IH]; intro s; simpl; [eauto|].
  destruct (calc_pi_body_ok s) as [[s'|r] ->]; eauto.
Qed.

(** The rule for the driver: an invariant of the loop that also covers
    a run cut short by the budget. *)
Lemma calc_pi_loop_rule
  (Inv : Z * string * St * list event -> Prop) (Post : run St -> Prop) (st0 : St) :
  Inv (0, "3."%string, st0, []) ->
  (forall s s', Inv s ->
     calc_pi_body progress cancellable digits s = Ok (inl s') -> Inv s') ->
  (forall s r, Inv s ->
     calc_pi_body progress cancellable digits s = Ok (inr r) -> Post r) ->
  (forall i pi st log, Inv (i, pi, st, log) -> Post (Run Hung EmptyString log st)) ->
  Post (calc_pi_loop progress cancellable digits st0).
Proof.
  intros Hinit Hstep Hexit Hcut. unfold calc_pi_loop. rewrite iter_p_iter_n.
  pose proof (iter_n_invariant _ Inv Post Hstep Hexit (Pos.to_nat budget)
                (0, "3."%string, st0, []) Hinit) as H.
  destruct (calc_pi_iter_ok (Pos.to_nat budget) (0, "3."%string, st0, []))
    as [x E].
  rewrite E in *. destruct x as [[[[i pi] st] log]|r]; [|exact H].
  apply (Hcut i pi st log). exact H.
Qed.
End DriverFacts.

(** Case analysis of one round of the driver, from [H : calc_pi_body _ _ _ _ = Ok _]. *)
Ltac driver_cases H :=
  unfold calc_pi_body in H;
  match type of H with
  | context [?i <? ?d] => destruct (Z.ltb_spec i d)
  end;
  [ match type of H with
    | context [at_ ?n] => destruct (at_ n) eqn:?Hat
    end;
    [ match type of H with
      | context [?p ?st ?v] =>
          match type of (p st v) with
          | (bool * _)%type => destruct (p st v) as [? ?] eqn:?Hcb
          end
      end;
      match type of H with
      | context [?c && negb ?b] => destruct (c && negb b) eqn:?Hstop
      end
    | | ]
  | ];
  inversion H; subst; clear H.

Lemma values_snoc_block (log : list event) (n : Z) :
  progress_values (log ++ [Block n]) = progress_values log.
Proof. rewrite progress_values_app. simpl. apply app_nil_r. Qed.

Lemma values_snoc_progress (log : list event) (n v : Z) (b : bool) :
  progress_values (log ++ [Block n; Progress v b]) = progress_values log ++ [v].
Proof. rewrite progress_values_app. reflexivity. Qed.

Lemma last_position_hangs : at_ (Int.wrap (Size.add 4294967292 1)) = Diverge.
Proof.
  replace (Int.wrap (Size.add 4294967292 1)) with (-3)
    by (vm_compute; reflexivity).
  exact at_minus_3.
Qed.

Section DriverProgress.
Context {St : Type}.
Variable progress : St -> Z -> bool * St.
Variable cancellable : bool.
Variable digits : Z.
Hypothesis Hdigits : 0 <= digits <= Size.MAX.

Lemma driver_reported (i : Z) :
  0 <= i <= 4294967292 -> i < digits ->
  let v := Size.add i (Z.min (Size.sub digits i) 9) in
  v = Z.min digits (i + 9) /\ i < v.
Proof.
  intros Hi Hlt. unfold Size.add, Size.sub.
  rewrite (Size_wrap_id (digits - i)) by lia.
  rewrite Size_wrap_id by (unfold Size.MAX in *; lia). lia.
Qed.

Lemma driver_step s s' :
  driver_inv digits s ->
  calc_pi_body progress cancellable digits s = Ok (inl s') ->
  driver_inv digits s'.
Proof.
  destruct s as [[[i pi] st] log].
  intros (Hi & Hdiv & Hinc & Hall & Hlast) H. driver_cases H.
  destruct (driver_reported i Hi ltac:(assumption)) as [Hv Hiv].
  assert (Hi9 : i + 9 <= 4294967292).
  { destruct (Z.eq_dec i 4294967292) as [->|Hne];
      [rewrite last_position_hangs in Hat; discriminate|].
    destruct Hdiv as [z Hz]. lia. }
  assert (Hadd : Size.add i 9 = i + 9)
    by (apply Size_wrap_id; unfold Size.MAX; lia).
  rewrite Hadd. unfold driver_inv. rewrite values_snoc_progress.
  split; [lia|]. split; [destruct Hdiv as [z Hz]; exists (z + 1); lia|].
  split; [|split].
  - apply strictly_increasing_snoc; [exact Hinc|].
    intros y Hy. specialize (Hall y Hy). lia.
  - intros y Hy. apply in_app_or in Hy. destruct Hy as [Hy|[<-|[]]].
    + specialize (Hall y Hy). lia.
    + lia.
  - right. rewrite last_last. exact Hv.
Qed.

Lemma driver_exit s r :
  driver_inv digits s ->
  calc_pi_body progress cancellable digits s = Ok (inr r) ->
  driver_post digits r.
Proof.
  destruct s as [[[i pi] st] log].
  intros (Hi & Hdiv & Hinc & Hall & Hlast) H. driver_cases H;
    unfold driver_post; cbn [events ending_of].
  - destruct (driver_reported i Hi ltac:(assumption)) as [Hv Hiv].
    rewrite values_snoc_progress. split; [|discriminate].
    apply strictly_increasing_snoc; [exact Hinc|].
    intros y Hy. specialize (Hall y Hy). lia.
  - rewrite values_snoc_block. split; [exact Hinc|discriminate].
  - rewrite values_snoc_block. split; [exact Hinc|discriminate].
  - split; [exact Hinc|]. intros _ Hd1.
    destruct Hlast as [[_ Hi0]|Hlast]; lia.
Qed.

Lemma driver_progress (st0 : St) :
  driver_post digits (calc_pi_loop progress cancellable digits st0).
Proof.
  apply (calc_pi_loop_rule progress cancellable digits (driver_inv digits)).
  - unfold driver_inv. simpl. split; [lia|]. split; [exists 0; lia|].
    split; [exact I|]. split; [intros v []|left; auto].
  - exact driver_step.
  - exact driver_exit.
  - intros i pi st log (Hi & Hdiv & Hinc & Hall & Hlast).
    split; [exact Hinc|discriminate].
Qed.
End DriverProgress.

(** *** Cancellation *)

Section DriverCancel.
Context {St : Type}.
Variable progress : St -> Z -> bool * St.
Variable digits : Z.

Lemma all_continue_snoc (log : list event) (e : event) :
  all_continue log -> (forall v, e <> Progress v false) ->
  all_continue (log ++ [e]).
Proof.
  intros Hlog He v Hin. apply in_app_or in Hin.
  destruct Hin as [Hin|[Hin|[]]]; [exact (Hlog v Hin)|exact (He v Hin)].
Qed.

Lemma cancel_step s s' :
  cancel_inv s ->
  calc_pi_body progress true digits s = Ok (inl s') -> cancel_inv s'.
Proof.
  destruct s as [[[i pi] st] log]. intros Hlog H. driver_cases H.
  unfold cancel_inv. cbn [andb] in *.
  change (log ++ [Block (Int.wrap (Size.add i 1)); Progress ?v b])
    with (log ++ [Block (Int.wrap (Size.add i 1))] ++ [Progress v b]).
  rewrite app_assoc.
  apply all_continue_snoc; [apply all_continue_snoc|].
  - exact Hlog.
  - discriminate.
  - intros v [= _ ->]. discriminate.
Qed.

Lemma cancel_exit s r :
  cancel_inv s ->
  calc_pi_body progress true digits s = Ok (inr r) -> cancel_post r.
Proof.
  destruct s as [[[i pi] st] log]. intros Hlog H. driver_cases H;
    unfold cancel_post; cbn [events result ending_of andb] in *.
  - right. exists (log ++ [Block (Int.wrap (Size.add i 1))]).
    destruct b; [discriminate|]. eexists.
    split; [rewrite <- app_assoc; reflexivity|].
    split; [apply all_continue_snoc; [exact Hlog|discriminate]|auto].
  - left. apply all_continue_snoc; [exact Hlog|discriminate].
  - left. apply all_continue_snoc; [exact Hlog|discriminate].
  - left. exact Hlog.
Qed.

Lemma driver_cancel (st0 : St) : cancel_post (calc_pi progress digits st0).
Proof.
  unfold calc_pi.
  apply (calc_pi_loop_rule progress true digits cancel_inv).
  - intros v [].
  - exact cancel_step.
  - exact cancel_exit.
  - intros i pi st log Hlog. left. exact Hlog.
Qed.

(** A refusal is the last thing a run does. *)
Lemma refusal_is_last (st0 : St) (l1 l2 : list event) (v : Z) :
  events (calc_pi progress digits st0) = l1 ++ Progress v false :: l2 ->
  l2 = [] /\ result (calc_pi progress digits st0) = EmptyString /\
  ending_of (calc_pi progress digits st0) = Cancelled.
Proof.
  intros E. destruct (driver_cancel st0) as [Hall|(log & w & Hev & Hlog & Hres)].
  - exfalso. apply (Hall v). rewrite E. apply in_elt.
  - split; [|exact Hres]. rewrite Hev in E.
    destruct (exists_last (l := Progress v false :: l2)) as (l & e & El);
      [discriminate|].
    rewrite El, app_assoc in E. apply app_inj_tail in E. destruct E as [E _].
    destruct l2 as [|e2 l2]; [reflexivity|exfalso].
    destruct l as [|e1 l]; [destruct l2; discriminate El|].
    injection El as <- _. apply (Hlog v). rewrite E.
    apply in_or_app. right. left. reflexivity.
Qed.
End DriverCancel.

(** *** Running a few rounds *)

Lemma calc_pi_loop_after {St : Type} (progress : St -> Z -> bool * St)
  (cancellable : bool) (digits : Z) (st0 : St) (k : nat) (r : run St) :
  Z.of_nat k <= 1000 ->
  iter_n (calc_pi_body progress cancellable digits) k (0, "3."%string, st0, [])
    = Ok (inr r) ->
  calc_pi_loop progress cancellable digits st0 = r.
Proof.
  intros Hk E. unfold calc_pi_loop.
  rewrite iter_p_iter_n, (iter_n_stable _ k), E; [reflexivity| |].
  - apply Nat2Z.inj_le. rewrite positive_nat_Z. unfold budget. lia.
  - rewrite E. discriminate.
Qed.

Lemma at_1 : at_ 1 = Ok 141592653.
Proof. vm_compute. reflexivity. Qed.

Lemma at_10 : at_ 10 = Ok 589793238.
Proof. vm_compute. reflexivity. Qed.

Lemma always_continue_true {St : Type} (progress : St -> Z -> bool * St) :
  always_continue progress ->
  forall st v, progress st v = (true, snd (progress st v)).
Proof.
  intros Hp st v. specialize (Hp st v).
  destruct (progress st v) as [b st']. simpl in *. subst b. reflexivity.
Qed.

Section FewRounds.
Context {St : Type}.
Variable progress : St -> Z -> bool * St.

Lemma first_round_refused (d : Z) (st0 : St) :
  1 <= d <= Size.MAX -> fst (progress st0 (Z.min d 9)) = false ->
  calc_pi progress d st0 =
  Run Cancelled EmptyString [Block 1; Progress (Z.min d 9) false]
      (snd (progress st0 (Z.min d 9))).
Proof.
  intros Hd Hno. apply (calc_pi_loop_after _ _ _ _ 1); [lia|].
  cbn [iter_n]. unfold calc_pi_body.
  destruct (Z.ltb_spec 0 d); [|lia].
  change (Int.wrap (Size.add 0 1)) with 1. rewrite at_1.
  assert (Hv : Size.add 0 (Z.min (Size.sub d 0) 9) = Z.min d 9).
  { unfold Size.add, Size.sub. rewrite (Size_wrap_id (d - 0)) by lia.
    rewrite Size_wrap_id by (unfold Size.MAX in *; lia). lia. }
  rewrite Hv. destruct (progress st0 (Z.min d 9)) as [b st1].
  cbn [fst snd] in *. subst b. reflexivity.
Qed.

Hypothesis Hcontinue : always_continue progress.

Lemma up_to_nine_digits (d : Z) (st0 : St) :
  1 <= d <= 9 ->
  progress_values (events (calc_pi progress d st0)) = [d].
Proof.
  intros Hd.
  assert (Hv : Size.add 0 (Z.min (Size.sub d 0) 9) = d).
  { unfold Size.add, Size.sub. rewrite (Size_wrap_id (d - 0))
      by (unfold Size.MAX; lia).
    rewrite Size_wrap_id by (unfold Size.MAX in *; lia). lia. }
  unfold calc_pi. erewrite (calc_pi_loop_after _ _ _ _ 2); [| lia |].
  2:{ cbn [iter_n]. unfold calc_pi_body at 1.
      destruct (Z.ltb_spec 0 d); [|lia].
      change (Int.wrap (Size.add 0 1)) with 1. rewrite at_1, Hv.
      rewrite (always_continue_true progress Hcontinue). cbn [andb negb].
      change (Size.add 0 9) with 9. unfold calc_pi_body.
      destruct (Z.ltb_spec 9 d); [lia|]. reflexivity. }
  reflexivity.
Qed.

Lemma ten_digits (st0 : St) :
  progress_values (events (calc_pi progress 10 st0)) = [9; 10].
Proof.
  unfold calc_pi. erewrite (calc_pi_loop_after _ _ _ _ 3); [| lia |].
  2:{ cbn [iter_n]. unfold calc_pi_body at 1.
      change (0 <? 10) with true. cbv iota.
      change (Int.wrap (Size.add 0 1)) with 1. rewrite at_1.
      change (Size.add 0 (Z.min (Size.sub 10 0) 9)) with 9.
      rewrite (always_continue_true progress Hcontinue). cbn [andb negb].
      change (Size.add 0 9) with 9. unfold calc_pi_body at 1.
      change (9 <? 10) with true. cbv iota.
      change (Int.wrap (Size.add 9 1)) with 10. rewrite at_10.
      change (Size.add 9 (Z.min (Size.sub 10 9) 9)) with 10.
      rewrite (always_continue_true progress Hcontinue). cbn [andb negb].
      change (Size.add 9 9) with 18. unfold calc_pi_body.
      change (18 <? 10) with false. cbv iota. reflexivity. }
  reflexivity.
Qed.

(** *** The two drivers *)

Lemma bodies_agree (d : Z) (s : Z * string * St * list event) :
  calc_pi_body progress true d s = calc_pi_body progress false d s.
Proof.
  destruct s as [[[i pi] st] log]. unfold calc_pi_body.
  destruct (i <? d); [|reflexivity].
  destruct (at_ _); try reflexivity.
  rewrite (always_continue_true progress Hcontinue). reflexivity.
Qed.
End FewRounds.

Lemma iter_n_ext {S R : Type} (f g : S -> outcome (S + R)) :
  (forall s, f s = g s) -> forall n s, iter_n f n s = iter_n g n s.
Proof.
  intros Hfg. induction n as [|n IH]; intro s; simpl; [reflexivity|].
  rewrite Hfg. destruct (g s) as [[s'|r]| |]; auto.
Qed.

Lemma drivers_agree {St : Type} (progress : St -> Z -> bool * St) :
  always_continue progress ->
  forall d st0, calc_pi progress d st0 = calc_pi_single progress d st0.
Proof.
  intros Hp d st0. unfold calc_pi, calc_pi_single, calc_pi_loop.
  rewrite !iter_p_iter_n.
  rewrite (iter_n_ext _ _ (bodies_agree progress Hp d)). reflexivity.
Qed.

(** *** The length of the result *)

Lemma length_append (s1 s2 : string) :
  String.length (s1 ++ s2) = (String.length s1 + String.length s2)%nat.
Proof. induction s1 as [|c s1 IH]; simpl; [reflexivity|]. rewrite IH. reflexivity. Qed.

Lemma length_prefix (n : nat) (s : string) :
  String.length (substring 0 n s) = Nat.min n (String.length s).
Proof.
  revert s. induction n as [|n IH]; intros [|c s]; simpl; try reflexivity.
  rewrite IH. reflexivity.
Qed.

Lemma length_substr (s : string) (count : Z) :
  0 <= count ->
  Z.of_nat (String.length (substr s 0 count)) =
  Z.min count (Z.of_nat (String.length s)).
Proof.
  intros Hc. unfold substr. change (Z.to_nat 0) with O.
  rewrite length_prefix. lia.
Qed.

Lemma at_307 : at_ 307 = Ok 6606315.
Proof. vm_compute. reflexivity. Qed.

Lemma calc_pi_loop_total_rule {St : Type} (progress : St -> Z -> bool * St)
  (cancellable : bool) (digits : Z)
  (Inv : Z * string * St * list event -> Prop) (Post : run St -> Prop)
  (mu : Z * string * St * list event -> Z) (st0 : St) :
  (forall s, Inv s ->
     (exists s', calc_pi_body progress cancellable digits s = Ok (inl s') /\
                 Inv s' /\ 0 <= mu s' < mu s) \/
     (exists r, calc_pi_body progress cancellable digits s = Ok (inr r) /\ Post r)) ->
  Inv (0, "3."%string, st0, []) ->
  0 <= mu (0, "3."%string, st0, []) < 2 ^ 64 - 1 ->
  Post (calc_pi_loop progress cancellable digits st0).
Proof.
  intros Hstep Hinit Hmu. unfold calc_pi_loop. rewrite iter_p_iter_n.
  destruct (iter_n_total _ Inv Post mu Hstep (Pos.to_nat budget)
              (0, "3."%string, st0, []) Hinit) as (r & -> & HP).
  - rewrite positive_nat_Z. unfold budget. lia.
  - exact HP.
Qed.

Section ShortResult.
Context {St : Type}.
Variable progress : St -> Z -> bool * St.
Hypothesis Hcontinue : always_continue progress.

Lemma short_step (s : Z * string * St * list event) :
  short_inv s ->
  (exists s', calc_pi_body progress true 315 s = Ok (inl s') /\
              short_inv s' /\ 0 <= 324 - fst (fst (fst s')) < 324 - fst (fst (fst s))) \/
  (exists r, calc_pi_body progress true 315 s = Ok (inr r) /\ short_post r).
Proof.
  destruct s as [[[i pi] st] log]. intros (Hi & [z Hz] & Hlen & Hfull).
  cbn [fst]. unfold calc_pi_body.
  destruct (Z.ltb_spec i 315) as [Hlt|Hge].
  - left.
    assert (Hn : Int.wrap (Size.add i 1) = i + 1).
    { unfold Size.add. rewrite Size_wrap_id by (unfold Size.MAX; lia).
      apply Int_wrap_id. unfold Int.MIN, Int.MAX. lia. }
    assert (Hcount : Z.min (Size.sub 315 i) 9 = 9).
    { unfold Size.sub. rewrite Size_wrap_id by (unfold Size.MAX; lia). lia. }
    assert (Hi9 : Size.add i 9 = i + 9)
      by (apply Size_wrap_id; unfold Size.MAX; lia).
    rewrite Hn, Hcount, Hi9.
    destruct (at_total (i + 1)) as [nine Hat]; [unfold Int.MAX; lia|].
    rewrite Hat, (always_continue_true progress Hcontinue). cbn [andb negb].
    eexists. split; [reflexivity|]. cbn [fst]. split; [|lia].
    unfold short_inv. rewrite length_append, Nat2Z.inj_add, length_substr by lia.
    split; [lia|]. split; [exists (z + 1); lia|]. split; [lia|].
    intros Hlast. assert (Ei : i = 306) by lia.
    rewrite Ei in Hat. change (306 + 1) with 307 in Hat. rewrite at_307 in Hat.
    injection Hat as <-.
    change (Z.of_nat (String.length (to_string 6606315))) with 7. lia.
  - right. eexists. split; [reflexivity|].
    split; [reflexivity|]. cbn [result]. lia.
Qed.

Lemma result_is_short (st0 : St) : short_post (calc_pi progress 315 st0).
Proof.
  apply (calc_pi_loop_total_rule progress true 315 short_inv short_post
           (fun s => 324 - fst (fst (fst s))) st0 short_step).
  - unfold short_inv. split; [lia|]. split; [exists 0; lia|].
    split; [simpl; lia|lia].
  - cbn [fst]. lia.
Qed.
End ShortResult.

(** * The claims *)

(** C1 (the code departs from it).  With a callback that always
    continues, [calc_pi(315, p)] completes, and the string it returns has
    fewer than [2 + 315] characters: the block that starts at position
    307 is [006606315], the extractor returns it as the number 6606315,
    and [std::to_string] prints only seven characters of it. *)
Theorem calc_pi_315_is_short :
  let r := calc_pi (fun (st : unit) (_ : Z) => (true, st)) 315 tt in
  at_ 307 = Ok 6606315 /\ to_string 6606315 = "6606315"%string /\
  ending_of r = Completed /\ (String.length (result r) < 2 + 315)%nat.
Proof.
  cbv zeta. split; [exact at_307|]. split; [reflexivity|].
  destruct (result_is_short (fun (st : unit) (_ : Z) => (true, st))
              (fun _ _ => eq_refl) tt) as [Hend Hlen].
  split; [exact Hend|]. lia.
Qed.

(** C2.  The extractor yields the known digits of pi: the nine digits
    from position 1 are 141592653 and those from position 10 are
    589793238. *)
Theorem at_known_values : at_ 1 = Ok 141592653 /\ at_ 10 = Ok 589793238.
Proof. split; [exact at_1|exact at_10]. Qed.

(** C3.  For every [d >= 1]: a callback that answers [false] ends the
    run at once, nothing follows that call in the run (no block, no
    further call), and the result is the empty string; when the first
    answer is [false] the run is one block and one call. *)
Theorem cancellation_ends_the_run {St : Type}
  (progress : St -> Z -> bool * St) (d : Z) (st0 : St) :
  1 <= d <= Size.MAX ->
  (forall l1 v l2,
     events (calc_pi progress d st0) = l1 ++ Progress v false :: l2 ->
     l2 = [] /\ result (calc_pi progress d st0) = EmptyString /\
     ending_of (calc_pi progress d st0) = Cancelled) /\
  (fst (progress st0 (Z.min d 9)) = false ->
   events (calc_pi progress d st0) = [Block 1; Progress (Z.min d 9) false] /\
   result (calc_pi progress d st0) = EmptyString).
Proof.
  intros Hd. split.
  - intros l1 v l2. apply refusal_is_last.
  - intros Hno. rewrite (first_round_refused progress d st0 Hd Hno).
    split; reflexivity.
Qed.

Lemma cancellation_ends_the_run_witness :
  1 <= 20 <= Size.MAX /\
  events (calc_pi (fun (_ : unit) (_ : Z) => (false, tt)) 20 tt)
    = [Block 1; Progress 9 false] /\
  result (calc_pi (fun (_ : unit) (_ : Z) => (false, tt)) 20 tt) = EmptyString.
Proof.
  assert (H : 1 <= 20 <= Size.MAX) by (unfold Size.MAX; lia).
  split; [exact H|].
  exact (proj2 (cancellation_ends_the_run
                  (fun (_ : unit) (_ : Z) => (false, tt)) 20 tt H) eq_refl).
Defined.



(** The bound [1 <= vmax] matters: were the quotient truncated to 0 the
    modulus would be 1, the denominator 0, and [inv_mod(0, 1)] would
    divide by zero at its first step. *)
Lemma vmax_zero_would_divide_by_zero : at_with (fun _ _ => 0) 1 = DivZero.
Proof. vm_compute. reflexivity. Qed.

(** C5.  For [1 <= x < y] with [gcd(x, y) = 1], [inv_mod(x, y)] returns
    [r] in [[0, y)] with [(r * x) mod y = 1]. *)
Theorem inv_mod_is_inverse (x y : Z) :
  1 <= x < y -> y <= Int.MAX -> Z.gcd x y = 1 ->
  exists r, inv_mod x y = Ok r /\ 0 <= r < y /\ (r * x) mod y = 1.
Proof. intros Hx Hy Hg. exact (inv_mod_spec x y Hx Hy Hg). Qed.

Lemma inv_mod_is_inverse_witness :
  (1 <= 3 < 7 /\ 7 <= Int.MAX /\ Z.gcd 3 7 = 1) /\
  exists r, inv_mod 3 7 = Ok r /\ 0 <= r < 7 /\ (r * 3) mod 7 = 1.
Proof.
  assert (H1 : 1 <= 3 < 7) by lia.
  assert (H2 : 7 <= Int.MAX) by (unfold Int.MAX; lia).
  assert (H3 : Z.gcd 3 7 = 1) by reflexivity.
  split; [auto|]. exact (inv_mod_is_inverse 3 7 H1 H2 H3).
Defined.

(** [pow_mod] agrees with the reference power as soon as the exponent is
    positive or the modulus is at least 2. *)
Lemma pow_mod_matches_reference (a b m : Z) :
  0 <= a < m -> 0 <= b <= Int.MAX -> 0 < m <= Int.MAX -> 1 <= b \/ 2 <= m ->
  exists r, pow_mod a b m = Ok r /\ r = power_mod_reference a b m /\ 0 <= r < m.
Proof.
  intros Ha Hb Hm Hcase.
  destruct (pow_mod_spec a b m Hm ltac:(lia) Hb) as (r & Hr & Hpos & Hzero).
  exists r. split; [exact Hr|]. unfold power_mod_reference.
  rewrite slow_power_pow by lia.
  destruct (Z.eq_dec b 0) as [->|Hb0].
  - rewrite (Hzero eq_refl), Z.pow_0_r, Z.mod_small by lia. lia.
  - rewrite (Hpos ltac:(lia)). split; [reflexivity|].
    apply Z.mod_pos_bound. lia.
Qed.

(** C6 (the code departs from it).  [pow_mod(0, 0, 1)] returns 1, which
    is neither the reference value [0 ^ 0 mod 1 = 0] nor in [[0, 1)]:
    the result starts at 1 and is reduced only by a multiplication. *)
Theorem pow_mod_modulus_one :
  pow_mod 0 0 1 = Ok 1 /\ power_mod_reference 0 0 1 = 0.
Proof. split; reflexivity. Qed.

(** C7.  For every [d >= 1] and every callback, the values passed to the
    callback are strictly increasing, and when the run completes the
    last one is [d]. *)
Theorem progress_strictly_increases {St : Type}
  (progress : St -> Z -> bool * St) (d : Z) (st0 : St) :
  1 <= d <= Size.MAX ->
  strictly_increasing (progress_values (events (calc_pi progress d st0))) /\
  (ending_of (calc_pi progress d st0) = Completed ->
   List.last (progress_values (events (calc_pi progress d st0))) 0 = d).
Proof.
  intros Hd. unfold calc_pi.
  destruct (driver_progress progress true d ltac:(lia) st0) as [Hinc Hlast].
  split; [exact Hinc|]. intros Hend. exact (Hlast Hend (proj1 Hd)).
Qed.

Lemma progress_strictly_increases_witness :
  1 <= 10 <= Size.MAX /\
  strictly_increasing
    (progress_values (events (calc_pi (fun (st : unit) (_ : Z) => (true, st)) 10 tt))) /\
  (ending_of (calc_pi (fun (st : unit) (_ : Z) => (true, st)) 10 tt) = Completed ->
   List.last
     (progress_values (events (calc_pi (fun (st : unit) (_ : Z) => (true, st)) 10 tt)))
     0 = 10).
Proof.
  assert (H : 1 <= 10 <= Size.MAX) by (unfold Size.MAX; lia).
  split; [exact H|].
  exact (progress_strictly_increases (fun (st : unit) (_ : Z) => (true, st)) 10 tt H).
Defined.

(** C8.  With a callback that always continues: for [d] from 1 to 9 the
    callback is called once, with [d]; for [d = 10] it is called twice,
    with 9 and then 10. *)
Theorem progress_at_the_boundary {St : Type}
  (progress : St -> Z -> bool * St) (st0 : St) :
  always_continue progress ->
  (forall d, 1 <= d <= 9 ->
     progress_values (events (calc_pi progress d st0)) = [d]) /\
  progress_values (events (calc_pi progress 10 st0)) = [9; 10].
Proof.
  intros Hp. split.
  - intros d Hd. exact (up_to_nine_digits progress Hp d st0 Hd).
  - exact (ten_digits progress Hp st0).
Qed.

Lemma progress_at_the_boundary_witness :
  progress_values
    (events (calc_pi (fun (st : unit) (_ : Z) => (true, st)) 5 tt)) = [5] /\
  progress_values
    (events (calc_pi (fun (st : unit) (_ : Z) => (true, st)) 10 tt)) = [9; 10].
Proof.
  destruct (progress_at_the_boundary
              (fun (st : unit) (_ : Z) => (true, st)) tt (fun _ _ => eq_refl))
    as [Hfew Hten].
  split; [apply Hfew; lia|exact Hten].
Defined.

(** C9, as stated, fails at the largest [int]: no [int] is a prime above
    [2^31 - 1], and the search wraps around to a negative number. *)
Lemma next_prime_at_int_max :
  3 <= Int.MAX /\ next_prime Int.MAX = Ok (-2147483647).
Proof. split; [unfold Int.MAX; lia|vm_compute; reflexivity]. Qed.

(** C9, amended.  For every [n] with [3 <= n < 2^31 - 1], [next_prime(n)]
    returns the smallest prime above [n], which is odd; and for every
    odd [n] with [3 <= n <= 2^31 - 1], [not_prime(n)] returns [true]
    exactly when [n] is composite. *)
Theorem next_prime_is_next (n : Z) :
  3 <= n <= Int.MAX ->
  (n < Int.MAX ->
   exists p, next_prime n = Ok p /\ n < p /\ prime p /\ Z.odd p = true /\
             forall q, n < q -> prime q -> p <= q) /\
  (Z.odd n = true ->
   exists b, not_prime n = Ok b /\ (b = true <-> composite n)).
Proof.
  intros Hn. split.
  - intros Hlt.
    destruct (next_prime_spec n ltac:(lia) Hlt) as (p & Hrun & Hp & Hprime & Hmin).
    exists p. split; [exact Hrun|]. split; [lia|]. split; [exact Hprime|].
    split.
    + destruct (Z.odd p) eqn:Eodd; [reflexivity|exfalso].
      apply prime_alt in Hprime. destruct Hprime as [_ Hnone].
      apply (Hnone 2); [lia|].
      rewrite <- Z.negb_even in Eodd. apply negb_false_iff in Eodd.
      apply Z.even_spec in Eodd. destruct Eodd as [k Hk]. exists k. lia.
    + intros q Hq Hqp. destruct (Z_le_gt_dec p q) as [Hle|Hgt]; [exact Hle|].
      exfalso. apply (Hmin q); [lia|exact Hqp].
  - intros _. exact (not_prime_spec n Hn).
Qed.

Lemma next_prime_is_next_witness :
  3 <= 13 <= Int.MAX /\
  (exists p, next_prime 13 = Ok p /\ 13 < p /\ prime p /\ Z.odd p = true /\
             forall q, 13 < q -> prime q -> p <= q) /\
  (exists b, not_prime 13 = Ok b /\ (b = true <-> composite 13)).
Proof.
  assert (H : 3 <= 13 <= Int.MAX) by (unfold Int.MAX; lia).
  destruct (next_prime_is_next 13 H) as [Hnext Htest].
  split; [exact H|]. split; [apply Hnext; unfold Int.MAX; lia|].
  apply Htest. reflexivity.
Defined.

(** C10.  With a callback that always continues, the [ASYNC] driver and
    the single-threaded driver return the same string after passing the
    same values to the callback, for every digit count. *)
Theorem drivers_coincide {St : Type} (progress : St -> Z -> bool * St)
  (d : Z) (st0 : St) :
  always_continue progress ->
  result (calc_pi progress d st0) = result (calc_pi_single progress d st0) /\
  progress_values (events (calc_pi progress d st0)) =
  progress_values (events (calc_pi_single progress d st0)).
Proof.
  intros Hp. rewrite (drivers_agree progress Hp d st0). split; reflexivity.
Qed.

Lemma drivers_coincide_witness :
  result (calc_pi (fun (st : unit) (_ : Z) => (true, st)) 10 tt) =
  result (calc_pi_single (fun (st : unit) (_ : Z) => (true, st)) 10 tt) /\
  progress_values (events (calc_pi (fun (st : unit) (_ : Z) => (true, st)) 10 tt)) =
  progress_values (events (calc_pi_single (fun (st : unit) (_ : Z) => (true, st)) 10 tt)).
Proof.
  exact (drivers_coincide (fun (st : unit) (_ : Z) => (true, st)) 10 tt
           (fun _ _ => eq_refl)).
Defined.
